(** * A persistent copy-on-write trie: [src/primer/trie.cpp]

    The three operations of [bustub::Trie] ([Get], [Put], [Remove]) are
    embedded over an explicit store of immutable nodes.  A
    [std::shared_ptr<const TrieNode>] is an optional address into the store,
    [std::make_shared] appends a node to the store, and the one mutation the
    source performs ([children_[key[i]] = child_node] on a fresh clone) is a
    store update at the clone's address.  The three [while]/[for] loops keep
    their [std::size_t] counters, wrap-around included. *)

From stdpp Require Import gmap strings list fin_maps.
From Stdlib Require Import ZArith Ascii.

Local Open Scope Z_scope.

(** ** [std::size_t]: 64-bit unsigned arithmetic *)

Module SizeT.
Definition modulus : Z := 2 ^ 64.
Definition wrap (z : Z) : Z := z mod modulus.
Definition inc (x : Z) : Z := wrap (x + 1).
Definition dec (x : Z) : Z := wrap (x - 1).
(** [container.size()] *)
Definition of_nat (n : nat) : Z := wrap (Z.of_nat n).
End SizeT.

(** ** Outcomes of running a piece of code *)

Inductive outcome (A : Type) : Type :=
| Done (a : A)       (* ran to completion *)
| Fault              (* undefined behaviour: null or dangling dereference,
                        out-of-range [operator[]] *)
| OutOfFuel.         (* a loop exceeded its iteration bound *)
Arguments Done {A} a.
Arguments Fault {A}.
Arguments OutOfFuel {A}.

Definition obind {A B} (m : outcome A) (f : A -> outcome B) : outcome B :=
  match m with
  | Done a => f a
  | Fault => Fault
  | OutOfFuel => OutOfFuel
  end.

Notation "'let?' x := e 'in' k" := (obind e (fun x => k))
  (at level 10, x name, e at level 100, k at level 200, only parsing).

(** [container[i]] without bounds check *)
Definition index {A} (l : list A) (i : Z) : outcome A :=
  match l !! Z.to_nat i with
  | Some x => Done x
  | None => Fault
  end.

(** [std::shared_ptr<const TrieNode>]: an address into the store of nodes, or
    [None] for [nullptr]. *)
Abbreviation node_ptr := (option nat).

Section Trie.
(** The value types [T] the templates are instantiated at, and the values
    of each. *)
Context {ty : Type} `{!EqDecision ty} (val : ty -> Type).

(** Modelled from the spec: the classes [TrieNode] and
    [TrieNodeWithValue<T>] are declared in [primer/trie.h], which is not
    part of the sources.  A node holds a mapping from a character to a
    child reference; a value node additionally holds one value of a
    caller-chosen type.  [value_ = None] is a plain [TrieNode],
    [value_ = Some (existT T v)] is a [TrieNodeWithValue<T>] holding [v]. *)
Record TrieNode := mkTrieNode {
  children_ : gmap ascii node_ptr;
  value_ : option { T : ty & val T }
}.

(** Modelled from the spec: the flag marking whether the node carries a
    value. *)
Definition is_value_node_ (n : TrieNode) : bool :=
  match value_ n with Some _ => true | None => false end.

(** [dynamic_cast<const TrieNodeWithValue<T>*>(node)] followed by
    [->value_.get()]: succeeds exactly when the node's dynamic type is
    [TrieNodeWithValue<T>]. *)
Definition dynamic_cast (T : ty) (n : TrieNode) : option (val T) :=
  match value_ n with
  | Some (existT T' v) =>
      match decide (T' = T) with
      | left e => Some (eq_rect T' val v T e)
      | right _ => None
      end
  | None => None
  end.

(** The store of nodes; an address is an index. *)
Abbreviation heap := (list TrieNode).

(** [*p] / [p->] *)
Definition deref (h : heap) (p : node_ptr) : outcome TrieNode :=
  match p with
  | Some a => match h !! a with Some n => Done n | None => Fault end
  | None => Fault
  end.

(** *** Code that allocates or mutates: a state-and-outcome monad *)

Definition M (A : Type) : Type := heap -> outcome (A * heap).

Definition ret {A} (a : A) : M A := fun h => Done (a, h).

Definition bind {A B} (m : M A) (f : A -> M B) : M B :=
  fun h =>
    match m h with
    | Done (a, h') => f a h'
    | Fault => Fault
    | OutOfFuel => OutOfFuel
    end.

(** run read-only code against the current store *)
Definition read {A} (f : heap -> outcome A) : M A :=
  fun h => match f h with
           | Done a => Done (a, h)
           | Fault => Fault
           | OutOfFuel => OutOfFuel
           end.

(** [std::make_shared<const TrieNode>(...)] *)
Definition alloc (n : TrieNode) : M node_ptr :=
  fun h => Done (Some (length h), h ++ [n]).

(** Modelled from the spec: [TrieNode::Clone], a shallow copy with the
    same children mapping and the same value reference if present. *)
Definition Clone (p : node_ptr) : M node_ptr :=
  bind (read (fun h => deref h p)) alloc.

(** [const_cast<TrieNode *>(p.get())->children_[c] = q] *)
Definition set_child (p : node_ptr) (c : ascii) (q : node_ptr) : M unit :=
  fun h =>
    match p with
    | Some a =>
        match h !! a with
        | Some n =>
            Done (tt, <[a := mkTrieNode (<[c := q]> (children_ n)) (value_ n)]> h)
        | None => Fault
        end
    | None => Fault
    end.

(** A [while] loop with an iteration bound. *)
Fixpoint while {S} (bound : nat) (cond : S -> bool) (body : S -> M S)
    (s : S) : M S :=
  if cond s then
    match bound with
    | O => fun _ => OutOfFuel
    | Datatypes.S b => bind (body s) (while b cond body)
    end
  else ret s.

Notation "'let!' x := e 'in' k" := (bind e (fun x => k))
  (at level 10, x pattern, e at level 100, k at level 200, only parsing).

Definition is_null (p : node_ptr) : bool :=
  match p with None => true | Some _ => false end.

(** [m.find(c) == m.end() ? nullptr : m.at(c)] *)
Definition find_or_null (m : gmap ascii node_ptr) (c : ascii) : node_ptr :=
  match m !! c with
  | None => None
  | Some q => q
  end.

(** The version handle: one root reference, possibly [nullptr]. *)
Record Trie := mkTrie { root_ : node_ptr }.

(** *** [Trie::Get], lines 12-33 *)

(** The range-for over [key] (lines 15-20).  [Done None] is the early
    [return nullptr]; [Done (Some node)] is the loop running off its end
    with the local [node]. *)
Fixpoint Get_loop (h : heap) (node : node_ptr) (key : list ascii)
    : outcome (option node_ptr) :=
  match key with
  | [] => Done (Some node)
  | c :: key' =>
      if is_null node then Done None
      else
        let? n := deref h node in
        match children_ n !! c with
        | None => Done None
        | Some child => Get_loop h child key'
        end
  end.

Definition Get (T : ty) (t : Trie) (key : list ascii) (h : heap)
    : outcome (option (val T)) :=
  let? r := Get_loop h (root_ t) key in
  match r with
  | None => Done None
  | Some node =>
      if is_null node then Done None
      else
        let? n := deref h node in
        if negb (is_value_node_ n) then Done None
        else Done (dynamic_cast T n)
  end.

(** *** The loops shared by [Put] and [Remove] *)

(** "1. store old path" (lines 49-54 and 95-100); the state is
    [(idx, cur, node_stack)]. *)
Definition store_old_path (key : list ascii) (key_size : Z)
    : Z * node_ptr * list node_ptr -> M (Z * node_ptr * list node_ptr) :=
  while (length key)
    (fun '(idx, cur, _) => (idx <? key_size) && negb (is_null cur))
    (fun '(idx, cur, node_stack) =>
       let! ch := read (fun _ => index key idx) in
       let idx := SizeT.inc idx in
       let node_stack := node_stack ++ [cur] in
       let! n := read (fun h => deref h cur) in
       let cur := find_or_null (children_ n) ch in
       ret (idx, cur, node_stack)).

(** "2.2 create diff inner nodes" (lines 65-71); the state is
    [(key_size, cur, child_node)]. *)
Definition create_inner_nodes (key : list ascii) (idx : Z)
    : Z * node_ptr * node_ptr -> M (Z * node_ptr * node_ptr) :=
  while (length key)
    (fun '(key_size, _, _) => idx <? key_size)
    (fun '(key_size, cur, child_node) =>
       let key_size := SizeT.dec key_size in
       let! ch := read (fun _ => index key key_size) in
       let! cur := alloc (mkTrieNode {[ ch := child_node ]} None) in
       let child_node := cur in
       ret (key_size, cur, child_node)).

(** "3. copy same node" / "copy along path" (lines 75-79 and 111-115);
    the state is [(i, cur, child_node)]. *)
Definition copy_along_path (key : list ascii) (node_stack : list node_ptr)
    : Z * node_ptr * node_ptr -> M (Z * node_ptr * node_ptr) :=
  while (length key)
    (fun '(i, _, _) => i <? SizeT.of_nat (length node_stack))
    (fun '(i, cur, child_node) =>
       let! p := read (fun _ => index node_stack i) in
       let! cur := Clone p in
       let! ch := read (fun _ => index key i) in
       let! _ := set_child cur ch child_node in
       let child_node := cur in
       ret (SizeT.dec i, cur, child_node)).

(** *** [Trie::Put], lines 36-82 *)

Definition Put (T : ty) (t : Trie) (key : list ascii) (value : val T)
    : M Trie :=
  let shared_value : { T : ty & val T } := existT T value in
  let cur := root_ t in
  let key_size := SizeT.of_nat (length key) in
  let idx := 0 in
  (* 1. store old path *)
  let! (idx, cur, node_stack) := store_old_path key key_size (idx, cur, []) in
  (* 2.1 create leaf node *)
  let! leaf_node :=
    (if negb (is_null cur) then
       let! n := read (fun h => deref h cur) in
       alloc (mkTrieNode (children_ n) (Some shared_value))
     else alloc (mkTrieNode ∅ (Some shared_value))) in
  (* 2.2 create diff inner nodes *)
  let child_node := leaf_node in
  let! (key_size, cur, child_node) :=
    create_inner_nodes key idx (key_size, cur, child_node) in
  (* 3. copy same node *)
  let cur := child_node in
  let! (_, cur, child_node) :=
    copy_along_path key node_stack
      (SizeT.dec (SizeT.of_nat (length node_stack)), cur, child_node) in
  ret (mkTrie cur).

(** *** A call of [Trie::Put], the move of line 41 included

    Line 41, [std::make_shared<T>(std::move(value))], runs the move
    constructor of [T] before any of the loops.  The value types and their
    constructors are declared with the types, not in this file
    ([MoveBlocked] in [primer/trie.h]), so the constructor is a parameter:
    [move_ctor T v] is the value as it arrives in shared storage, or [None]
    when the constructor does not return.  [Put] above is the rest of the
    call, from the moved value on.  The result is [None] when the call does
    not return. *)

Definition Put_call (move_ctor : forall T : ty, val T -> option (val T))
    (T : ty) (t : Trie) (key : list ascii) (value : val T) (h : heap)
    : option (outcome (Trie * heap)) :=
  match move_ctor T value with
  | Some stored => Some (Put T t key stored h)
  | None => None
  end.

(** *** [Trie::Remove], lines 84-118 *)

Definition Remove (t : Trie) (key : list ascii) : M Trie :=
  let cur := root_ t in
  let key_size := SizeT.of_nat (length key) in
  let idx := 0 in
  (* 1. store old path *)
  let! (idx, cur, node_stack) := store_old_path key key_size (idx, cur, []) in
  if negb (idx =? key_size) || is_null cur then ret t
  else
    let! n := read (fun h => deref h cur) in
    if negb (is_value_node_ n) then ret t
    else
      (* 2. create end node *)
      let! end_node :=
        (if decide (children_ n = ∅) then ret None
         else alloc (mkTrieNode (children_ n) None)) in
      (* 3. copy along path *)
      let child_node := end_node in
      let cur := end_node in
      let! (_, cur, child_node) :=
        copy_along_path key node_stack
          (SizeT.dec (SizeT.of_nat (length node_stack)), cur, child_node) in
      ret (mkTrie cur).

End Trie.

Arguments mkTrieNode {ty val} children_ value_.
Arguments children_ {ty val} t.
Arguments value_ {ty val} t.
Arguments is_value_node_ {ty val} n.
Arguments deref {ty val} h p.
Arguments ret {ty val A} a h.
Arguments bind {ty val A B} m f h.
Arguments read {ty val A} f h.
Arguments alloc {ty val} n h.
Arguments Clone {ty val} p h.
Arguments set_child {ty val} p c q h.
Arguments while {ty val S} bound cond body s h.
Arguments Get_loop {ty val} h node key.
Arguments Put_call {ty} val move_ctor T t key value h.

(** ** The explicit instantiations, lines 127-144 *)

Module Inst.
Inductive ValueType := UInt32 | UInt64 | StdString | Integer | MoveBlocked.

Global Instance ValueType_eq_dec : EqDecision ValueType.
Proof. solve_decision. Defined.

(** [MoveBlocked] is declared in the header, which is not part of the
    sources.  It wraps a future, and all that matters of a [MoveBlocked]
    value here is whether waiting for that future ends: [true] when the
    future is or becomes ready, [false] when it never does. *)
Definition value (T : ValueType) : Type :=
  match T with
  | UInt32 | UInt64 | Integer => Z
  | StdString => string
  | MoveBlocked => bool
  end.

(** The move constructors of the instantiated types.  Integers, strings and
    [std::unique_ptr] move without waiting for anything; moving a
    [MoveBlocked] waits for its future, and does not return when the future
    never becomes ready. *)
Definition move_ctor (T : ValueType) : value T -> option (value T) :=
  match T return value T -> option (value T) with
  | MoveBlocked => fun ready : bool => if ready then Some true else None
  | UInt32 | UInt64 | Integer => fun v => Some v
  | StdString => fun v => Some v
  end.

Definition empty : Trie := mkTrie None.

(** The version holding ["ab" -> 1 : uint32_t], as [Put] lays it out. *)
Definition store_ab : list (TrieNode value) :=
  [ mkTrieNode ∅ (Some (existT UInt32 1));
    mkTrieNode {[ "b"%char := Some 0%nat ]} None;
    mkTrieNode {[ "a"%char := Some 1%nat ]} None ].
Definition trie_ab : Trie := mkTrie (Some 2%nat).

(** A version whose node for ["a"] has its entry for ['b'] bound to
    [nullptr]. *)
Definition store_null : list (TrieNode value) :=
  [ mkTrieNode {[ "b"%char := None ]} None;
    mkTrieNode {[ "a"%char := Some 0%nat ]} None ].
Definition trie_null : Trie := mkTrie (Some 1%nat).

(** [store_ab] after [Put("ac", 5 : uint64_t)] on [trie_ab]. *)
Definition store_ab_ac : list (TrieNode value) :=
  store_ab ++
  [ mkTrieNode ∅ (Some (existT UInt64 5));
    mkTrieNode (<[ "c"%char := Some 3%nat ]> {[ "b"%char := Some 0%nat ]}) None;
    mkTrieNode {[ "a"%char := Some 4%nat ]} None ].
End Inst.

(** ** Well-formed stores and a recursive description of the three phases

    Nothing below is part of the program: these are the invariants and the
    recursive reading of the loops that the proofs go through. *)

Section Description.
Context {ty : Type} `{!EqDecision ty} (val : ty -> Type).

Abbreviation TrieNode := (TrieNode val).
Abbreviation heap := (list TrieNode).

(** A reference is valid in a store when it is null or points into it. *)
Definition valid (h : heap) (p : node_ptr) : Prop :=
  match p with
  | None => True
  | Some a => (a < length h)%nat
  end.

Global Instance valid_dec h p : Decision (valid h p).
Proof. destruct p; simpl; apply _. Defined.

(** A store is closed when no node of it has a dangling child reference:
    what shared ownership guarantees in the source. *)
Definition closed (h : heap) : Prop :=
  Forall (fun n : TrieNode => map_Forall (fun _ p => valid h p) (children_ n)) h.

Global Instance closed_dec h : Decision (closed h).
Proof. unfold closed. apply _. Defined.

(** Phase 1 read recursively: the nodes pushed on [node_stack], and the
    final [cur]. *)
Fixpoint walk (h : heap) (cur : node_ptr) (key : list ascii)
    : list node_ptr * node_ptr :=
  match key, cur with
  | c :: key', Some a =>
      match h !! a with
      | Some n =>
          let '(st, r) := walk h (find_or_null (children_ n) c) key' in
          (cur :: st, r)
      | None => ([], cur)
      end
  | _, _ => ([], cur)
  end.

(** Phase 2.2 of [Put] read recursively: one plain single-child node per
    character of [cs], which lists the characters deepest first. *)
Fixpoint chain (cs : list ascii) (child : node_ptr) (h : heap)
    : node_ptr * heap :=
  match cs with
  | [] => (child, h)
  | c :: cs' =>
      chain cs' (Some (length h)) (h ++ [mkTrieNode {[ c := child ]} None])
  end.

(** Phase 3 read recursively; [items] pairs each stacked node with its key
    character, deepest first. *)
Fixpoint copy (items : list (node_ptr * ascii)) (child : node_ptr) (h : heap)
    : node_ptr * heap :=
  match items with
  | [] => (child, h)
  | (p, c) :: items' =>
      match deref h p with
      | Done n =>
          copy items' (Some (length h))
            (h ++ [mkTrieNode (<[c := child]> (children_ n)) (value_ n)])
      | _ => (child, h)
      end
  end.

(** The children mapping of the node a reference points to; empty for
    [nullptr]. *)
Definition children_of (h : heap) (p : node_ptr) : gmap ascii node_ptr :=
  match deref h p with
  | Done n => children_ n
  | _ => ∅
  end.

Definition value_of (h : heap) (p : node_ptr) : option { T : ty & val T } :=
  match deref h p with
  | Done n => value_ n
  | _ => None
  end.

(** The three phases of [Put] put together. *)
Definition put_phases (sv : { T : ty & val T }) (root : node_ptr)
    (key : list ascii) (h : heap) : node_ptr * heap :=
  let w := walk h root key in
  let h1 := h ++ [mkTrieNode (children_of h w.2) (Some sv)] in
  let ch := chain (reverse (drop (length w.1) key)) (Some (length h)) h1 in
  copy (reverse (zip w.1 key)) ch.1 ch.2.

(** The phases of [Remove] put together; [None] when it returns [*this]. *)
Definition remove_phases (root : node_ptr) (key : list ascii) (h : heap)
    : option (node_ptr * heap) :=
  let w := walk h root key in
  if decide (length w.1 = length key) then
    match w.2, value_of h w.2 with
    | Some _, Some _ =>
        let e := if decide (children_of h w.2 = ∅) then (None, h)
                 else (Some (length h),
                       h ++ [mkTrieNode (children_of h w.2) None]) in
        Some (copy (reverse (zip w.1 key)) e.1 e.2)
    | _, _ => None
    end
  else None.

(** [Put] as path copying by recursion on the key: the new node for the
    subtrie at [p], and the extended store. *)
Fixpoint put_rec (sv : { T : ty & val T }) (p : node_ptr) (key : list ascii)
    (h : heap) : node_ptr * heap :=
  match key with
  | [] => (Some (length h), h ++ [mkTrieNode (children_of h p) (Some sv)])
  | c :: key' =>
      let '(child, h1) := put_rec sv (find_or_null (children_of h p) c) key' h in
      (Some (length h1),
       h1 ++ [mkTrieNode (<[c := child]> (children_of h p)) (value_of h p)])
  end.

(** [Remove] by recursion on the key; [None] when the walk does not end on
    a value node. *)
Fixpoint remove_rec (p : node_ptr) (key : list ascii) (h : heap)
    : option (node_ptr * heap) :=
  match p with
  | None => None
  | Some _ =>
      match key with
      | [] =>
          match value_of h p with
          | None => None
          | Some _ =>
              if decide (children_of h p = ∅) then Some (None, h)
              else Some (Some (length h),
                         h ++ [mkTrieNode (children_of h p) None])
          end
      | c :: key' =>
          match remove_rec (find_or_null (children_of h p) c) key' h with
          | None => None
          | Some (child, h1) =>
              Some (Some (length h1),
                    h1 ++ [mkTrieNode (<[c := child]> (children_of h p))
                                      (value_of h p)])
          end
      end
  end.

(** A reference that can be dereferenced in a store. *)
Definition derefs (h : heap) (p : node_ptr) : Prop :=
  exists n, deref h p = Done n.

(** A node with a value or with at least one entry in its mapping. *)
Definition mapping_or_value (n : TrieNode) : Prop :=
  is_value_node_ n = true \/ children_ n <> ∅.

(** A node is childless when no entry of its mapping refers to a node. *)
Definition childless (n : TrieNode) : Prop :=
  map_Forall (fun _ q => q = None) (children_ n).

Global Instance childless_dec n : Decision (childless n).
Proof. unfold childless. apply _. Defined.

(** The versions, with their stores, that sequences of [Put] and [Remove]
    produce from the empty trie. *)
Inductive reachable : Trie -> heap -> Prop :=
| reachable_empty : reachable (mkTrie None) []
| reachable_Put T t key (v : val T) h t' h' :
    reachable t h ->
    Z.of_nat (length key) < SizeT.modulus ->
    Put val T t key v h = Done (t', h') ->
    reachable t' h'
| reachable_Remove t key h t' h' :
    reachable t h ->
    Z.of_nat (length key) < SizeT.modulus ->
    Remove val t key h = Done (t', h') ->
    reachable t' h'.

(** What a read at type [U] sees of a stored value: the value when its type
    is [U], nothing otherwise. *)
Definition stored_as (U : ty) (sv : { T : ty & val T }) : option (val U) :=
  dynamic_cast val U (mkTrieNode ∅ (Some sv)).

(** The stores that later calls of [Put] and [Remove], on whatever versions
    are at hand, make of a store. *)
Inductive evolves : heap -> heap -> Prop :=
| evolves_refl h : evolves h h
| evolves_Put T t key (v : val T) h0 h t' h' :
    evolves h0 h ->
    valid h (root_ t) ->
    Z.of_nat (length key) < SizeT.modulus ->
    Put val T t key v h = Done (t', h') ->
    evolves h0 h'
| evolves_Remove t key h0 h t' h' :
    evolves h0 h ->
    valid h (root_ t) ->
    Z.of_nat (length key) < SizeT.modulus ->
    Remove val t key h = Done (t', h') ->
    evolves h0 h'.

End Description.

Arguments derefs {ty val} h p.
Arguments mapping_or_value {ty val} n.

(** ** Proofs *)

Section Proofs.
Context {ty : Type} `{!EqDecision ty} (val : ty -> Type).

Abbreviation TrieNode := (TrieNode val).
Abbreviation heap := (list TrieNode).

Implicit Types (h : heap) (p q cur child : node_ptr) (n : TrieNode)
  (key : list ascii) (c : ascii) (t : Trie).

(** *** Stores *)

Lemma deref_Some h a n : h !! a = Some n -> deref h (Some a) = Done n.
Proof. intros E. simpl. by rewrite E. Qed.

Lemma deref_valid h a : valid val h (Some a) -> exists n, h !! a = Some n.
Proof. simpl. intros Ha. by apply lookup_lt_is_Some_2. Qed.

Lemma valid_app h ext p : valid val h p -> valid val (h ++ ext) p.
Proof. destruct p; simpl; [rewrite length_app; lia | done]. Qed.

Lemma deref_app h ext p : valid val h p -> deref (h ++ ext) p = deref h p.
Proof.
  destruct p as [a|]; [|done].
  intros Ha. unfold deref. by rewrite lookup_app_l.
Qed.

Lemma closed_lookup h a n c q :
  closed val h -> h !! a = Some n -> children_ n !! c = Some q -> valid val h q.
Proof.
  intros Hc Ha Hq.
  eapply Forall_lookup_1 in Hc; [|exact Ha].
  by apply (Hc c q).
Qed.

Lemma closed_find h a n c :
  closed val h -> h !! a = Some n -> valid val h (find_or_null (children_ n) c).
Proof.
  intros Hc Ha. unfold find_or_null.
  destruct (children_ n !! c) as [q|] eqn:E; [|done].
  eapply closed_lookup; eauto.
Qed.

Lemma closed_snoc h n :
  closed val h ->
  map_Forall (fun _ p => valid val (h ++ [n]) p) (children_ n) ->
  closed val (h ++ [n]).
Proof.
  intros Hc Hn. apply Forall_app. split.
  - eapply Forall_impl; [exact Hc|].
    intros m Hm c q Hq. apply valid_app. by apply (Hm c q).
  - by apply Forall_singleton.
Qed.

Lemma children_of_valid h p c :
  closed val h -> valid val h (find_or_null (children_of val h p) c).
Proof.
  intros Hc. unfold children_of.
  destruct p as [a|]; simpl; [|done].
  destruct (h !! a) as [n|] eqn:E; [|done].
  by eapply closed_find.
Qed.

(** *** [Get] *)

Lemma dynamic_cast_plain T n :
  is_value_node_ n = false -> dynamic_cast val T n = None.
Proof. unfold is_value_node_, dynamic_cast. by destruct (value_ n). Qed.

Lemma dynamic_cast_same T (v : val T) ch :
  dynamic_cast val T (mkTrieNode ch (Some (existT T v))) = Some v.
Proof.
  unfold dynamic_cast; simpl.
  destruct (decide (T = T)) as [e|]; [|done].
  by rewrite (proof_irrel e eq_refl).
Qed.

Lemma Get_nil T p h :
  Get val T (mkTrie p) [] h =
    match p with
    | None => Done None
    | Some _ => let? n := deref h p in Done (dynamic_cast val T n)
    end.
Proof.
  unfold Get; simpl. destruct p as [a|]; simpl; [|done].
  destruct (h !! a) as [n|]; simpl; [|done].
  destruct (is_value_node_ n) eqn:E; simpl; [done|].
  by rewrite dynamic_cast_plain.
Qed.

Lemma Get_cons T p c key h :
  Get val T (mkTrie p) (c :: key) h =
    match p with
    | None => Done None
    | Some _ =>
        let? n := deref h p in
        match children_ n !! c with
        | None => Done None
        | Some q => Get val T (mkTrie q) key h
        end
    end.
Proof.
  unfold Get; simpl. destruct p as [a|]; simpl; [|done].
  destruct (h !! a) as [n|]; simpl; [|done].
  by destruct (children_ n !! c).
Qed.

Lemma Get_null T key h : Get val T (mkTrie None) key h = Done None.
Proof. destruct key; [by rewrite Get_nil | by rewrite Get_cons]. Qed.

Lemma Get_find T h p c key :
  valid val h p ->
  Get val T (mkTrie p) (c :: key) h =
    Get val T (mkTrie (find_or_null (children_of val h p) c)) key h.
Proof.
  intros Hp. rewrite Get_cons. unfold children_of, find_or_null.
  destruct p as [a|]; [|by rewrite Get_null].
  destruct (deref_valid _ _ Hp) as [n Hn].
  rewrite (deref_Some _ _ _ Hn); simpl.
  destruct (children_ n !! c); [done | by rewrite Get_null].
Qed.

Lemma Get_frame T h ext p key :
  closed val h -> valid val h p ->
  Get val T (mkTrie p) key (h ++ ext) = Get val T (mkTrie p) key h.
Proof.
  intros Hc. revert p. induction key as [|c key IH]; intros p Hp.
  - rewrite !Get_nil. destruct p; [|done]. by rewrite deref_app.
  - rewrite !Get_cons. destruct p as [a|]; [|done].
    rewrite deref_app by done.
    destruct (deref_valid _ _ Hp) as [n Hn].
    rewrite (deref_Some _ _ _ Hn); simpl.
    destruct (children_ n !! c) as [q|] eqn:E; [|done].
    apply IH. eapply closed_lookup; eauto.
Qed.

Lemma Get_total T h p key :
  closed val h -> valid val h p ->
  exists r, Get val T (mkTrie p) key h = Done r.
Proof.
  intros Hc. revert p. induction key as [|c key IH]; intros p Hp.
  - rewrite Get_nil. destruct p as [a|]; [|by eexists].
    destruct (deref_valid _ _ Hp) as [n Hn].
    rewrite (deref_Some _ _ _ Hn); simpl. by eexists.
  - rewrite Get_cons. destruct p as [a|]; [|by eexists].
    destruct (deref_valid _ _ Hp) as [n Hn].
    rewrite (deref_Some _ _ _ Hn); simpl.
    destruct (children_ n !! c) as [q|] eqn:E; [|by eexists].
    apply IH. eapply closed_lookup; eauto.
Qed.

(** *** [std::size_t] counters that stay in range *)

Lemma SizeT_of_nat_small (m : nat) :
  Z.of_nat m < SizeT.modulus -> SizeT.of_nat m = Z.of_nat m.
Proof. intros Hm. unfold SizeT.of_nat, SizeT.wrap. apply Z.mod_small. lia. Qed.

Lemma SizeT_inc_nat (i : nat) :
  Z.of_nat (S i) < SizeT.modulus -> SizeT.inc (Z.of_nat i) = Z.of_nat (S i).
Proof. intros Hi. unfold SizeT.inc, SizeT.wrap. rewrite Z.mod_small; lia. Qed.

Lemma SizeT_dec_nat (i : nat) :
  Z.of_nat (S i) < SizeT.modulus -> SizeT.dec (Z.of_nat (S i)) = Z.of_nat i.
Proof. intros Hi. unfold SizeT.dec, SizeT.wrap. rewrite Z.mod_small; lia. Qed.

Lemma SizeT_inc_dec (x : Z) :
  0 <= x < SizeT.modulus -> SizeT.inc (SizeT.dec x) = x.
Proof.
  intros Hx. unfold SizeT.inc, SizeT.dec, SizeT.wrap.
  rewrite Zplus_mod_idemp_l. replace (x - 1 + 1) with x by lia.
  by apply Z.mod_small.
Qed.

(** *** The rule for bounded loops: an invariant and a variant *)

Lemma while_rule {S} (Inv : S -> heap -> Prop) (variant : S -> nat)
    (cond : S -> bool) (body : S -> M val S) :
  (forall s h, Inv s h -> cond s = true ->
     exists s' h', body s h = Done (s', h') /\ Inv s' h' /\
                   (variant s' < variant s)%nat) ->
  forall (b : nat) s h, Inv s h -> (variant s <= b)%nat ->
    exists s' h', while b cond body s h = Done (s', h') /\ Inv s' h' /\
                  cond s' = false.
Proof.
  intros Hbody. induction b as [|b IH]; intros s h HI Hv; simpl.
  - destruct (cond s) eqn:Ec; [|by exists s, h].
    destruct (Hbody s h HI Ec) as (s' & h' & _ & _ & Hlt). lia.
  - destruct (cond s) eqn:Ec; [|by exists s, h].
    destruct (Hbody s h HI Ec) as (s' & h' & Hb & HI' & Hlt).
    unfold bind. rewrite Hb. apply IH; [done | lia].
Qed.

(** *** Phase 1 is [walk] *)

Lemma walk_null h key : walk val h None key = ([], None).
Proof. by destruct key. Qed.

Lemma walk_cons h a n c key :
  h !! a = Some n ->
  walk val h (Some a) (c :: key) =
    (Some a :: (walk val h (find_or_null (children_ n) c) key).1,
     (walk val h (find_or_null (children_ n) c) key).2).
Proof. intros E; simpl. rewrite E. by destruct (walk val h _ key). Qed.

Lemma store_old_path_walk h root key :
  closed val h -> valid val h root ->
  Z.of_nat (length key) < SizeT.modulus ->
  store_old_path val key (SizeT.of_nat (length key)) (0, root, []) h =
    Done ((Z.of_nat (length (walk val h root key).1),
           (walk val h root key).2, (walk val h root key).1), h).
Proof.
  intros Hc Hroot Hlen. rewrite SizeT_of_nat_small by done.
  unfold store_old_path.
  edestruct (while_rule
    (fun '(idx, cur, stack) h' =>
       h' = h /\ valid val h cur /\
       exists i : nat, idx = Z.of_nat i /\ (i <= length key)%nat /\
         length stack = i /\
         stack ++ (walk val h cur (drop i key)).1 = (walk val h root key).1 /\
         (walk val h cur (drop i key)).2 = (walk val h root key).2)
    (fun '(idx, _, _) => (length key - Z.to_nat idx)%nat))
    as (s' & h' & -> & HI & Hcond); last first.
  - destruct s' as [[idx cur] stack].
    destruct HI as (-> & Hcur & i & -> & Hi & Hst & Hw1 & Hw2).
    assert (walk val h cur (drop i key) = ([], cur)) as Hw.
    { apply andb_false_iff in Hcond as [Hge | Hnull].
      - apply Z.ltb_ge in Hge. rewrite drop_ge by lia. by destruct cur.
      - destruct cur; [done|]. apply walk_null. }
    rewrite Hw in Hw1, Hw2; simpl in *.
    rewrite app_nil_r in Hw1. by rewrite <- Hw1, <- Hw2, Hst.
  - simpl. lia.
  - simpl. repeat split; [done|]. exists 0%nat. rewrite drop_0.
    repeat split; try done; lia.
  - intros [[idx cur] stack] h0 (-> & Hcur & i & -> & Hi & Hst & Hw1 & Hw2) Hcond.
    apply andb_true_iff in Hcond as [Hlt Hnn]. apply Z.ltb_lt in Hlt.
    destruct cur as [a|]; [clear Hnn|done].
    destruct (lookup_lt_is_Some_2 key i) as [ch Hch]; [lia|].
    destruct (deref_valid _ _ Hcur) as [n Hn].
    rewrite (drop_S _ _ _ Hch), (walk_cons _ _ _ _ _ Hn) in Hw1, Hw2.
    simpl in Hw1, Hw2.
    eexists (_, _, _), h. split; [|split].
    + unfold bind, read, index, ret. rewrite Nat2Z.id, Hch; simpl.
      rewrite Hn. reflexivity.
    + split; [done|]. split; [by eapply closed_find|].
      exists (S i). rewrite SizeT_inc_nat by lia.
      rewrite length_app; simpl. rewrite <- app_assoc; simpl.
      repeat split; [lia | lia | done | done].
    + rewrite SizeT_inc_nat by lia. lia.
Qed.

(** *** Phase 2.2 of [Put] is [chain] *)

Lemma create_inner_nodes_chain h key (i : nat) cur child :
  (i <= length key)%nat ->
  Z.of_nat (length key) < SizeT.modulus ->
  exists ks cur',
    create_inner_nodes val key (Z.of_nat i)
        (SizeT.of_nat (length key), cur, child) h =
      Done ((ks, cur', (chain val (reverse (drop i key)) child h).1),
            (chain val (reverse (drop i key)) child h).2).
Proof.
  intros Hi Hlen. rewrite SizeT_of_nat_small by done.
  unfold create_inner_nodes.
  edestruct (while_rule (S := Z * node_ptr * node_ptr)
    (fun '(ks, _, child') h' =>
       exists m : nat, ks = Z.of_nat m /\ (i <= m <= length key)%nat /\
         chain val (reverse (take (m - i) (drop i key))) child' h' =
           chain val (reverse (drop i key)) child h)
    (fun '(ks, _, _) => Z.to_nat ks))
    as (s' & h' & -> & HI & Hcond); last first.
  - destruct s' as [[ks cur'] child'].
    destruct HI as (m & -> & Hm & Hch).
    apply Z.ltb_ge in Hcond.
    replace (m - i)%nat with 0%nat in Hch by lia.
    rewrite take_0 in Hch; simpl in Hch. rewrite <- Hch. by eexists _, _.
  - simpl. lia.
  - simpl. exists (length key). split; [done|]. split; [lia|].
    by rewrite take_ge by (rewrite length_drop; lia).
  - intros [[ks cur0] child'] h0 (m & -> & Hm & Hch) Hcond.
    apply Z.ltb_lt in Hcond.
    destruct m as [|m]; [lia|].
    destruct (lookup_lt_is_Some_2 key m) as [ch Hk]; [lia|].
    eexists (_, _, _), _. split; [|split].
    + cbn beta iota zeta. unfold bind, read, index, alloc, ret.
      rewrite SizeT_dec_nat by lia. rewrite Nat2Z.id, Hk. reflexivity.
    + exists m. split; [done|]. split; [lia|].
      rewrite <- Hch.
      replace (S m - i)%nat with (S (m - i)) by lia.
      rewrite (take_S_r _ _ ch).
      * by rewrite reverse_snoc.
      * rewrite lookup_drop. by replace (i + (m - i))%nat with m by lia.
    + cbn beta iota zeta. lia.
Qed.

(** *** Phase 3 is [copy] *)

Lemma Clone_Done h p n :
  deref h p = Done n -> Clone p h = Done (Some (length h), h ++ [n]).
Proof. intros Hd. unfold Clone, bind, read, alloc. by rewrite Hd. Qed.

(** Overwriting an entry of the node allocated last leaves the rest of the
    store as it was. *)
Lemma set_child_fresh h n c child :
  set_child (Some (length h)) c child (h ++ [n]) =
    Done (tt, h ++ [mkTrieNode (<[c := child]> (children_ n)) (value_ n)]).
Proof.
  unfold set_child. rewrite lookup_app_r by lia.
  rewrite Nat.sub_diag; simpl.
  rewrite insert_app_r_alt by lia.
  by rewrite Nat.sub_diag.
Qed.

Lemma derefs_app h ext p : derefs h p -> derefs (h ++ ext) p.
Proof.
  intros [n Hn]. exists n. rewrite deref_app; [done|].
  destruct p as [a|]; [|done]. simpl in *.
  destruct (h !! a) eqn:E; [|done]. by eapply lookup_lt_Some.
Qed.

Lemma copy_along_path_copy h key stack child :
  (length stack <= length key)%nat ->
  Z.of_nat (length key) < SizeT.modulus ->
  Forall (derefs h) stack ->
  exists i,
    copy_along_path val key stack
        (SizeT.dec (SizeT.of_nat (length stack)), child, child) h =
      Done ((i, (copy val (reverse (zip stack key)) child h).1,
                (copy val (reverse (zip stack key)) child h).1),
            (copy val (reverse (zip stack key)) child h).2).
Proof.
  intros Hst Hlen Hd. rewrite !SizeT_of_nat_small by lia.
  unfold copy_along_path. rewrite SizeT_of_nat_small by lia.
  edestruct (while_rule (S := Z * node_ptr * node_ptr)
    (fun '(i, cur, child') h' =>
       cur = child' /\ Forall (derefs h') stack /\
       exists m : nat, i = SizeT.wrap (Z.of_nat m - 1) /\
         (m <= length stack)%nat /\
         copy val (reverse (take m (zip stack key))) child' h' =
           copy val (reverse (zip stack key)) child h)
    (fun '(i, _, _) => Z.to_nat (SizeT.inc i)))
    as (s' & h' & -> & HI & Hcond); last first.
  - destruct s' as [[i cur'] child'].
    destruct HI as (-> & _ & m & -> & Hm & Hcp).
    apply Z.ltb_ge in Hcond.
    destruct m as [|m].
    + rewrite take_0 in Hcp; simpl in Hcp. rewrite <- Hcp. by eexists.
    + unfold SizeT.wrap in Hcond. rewrite Z.mod_small in Hcond; lia.
  - simpl. rewrite SizeT_inc_dec; lia.
  - simpl. split; [done|]. split; [done|].
    exists (length stack). split; [done|]. split; [lia|].
    by rewrite take_ge by (rewrite length_zip_with; lia).
  - intros [[i cur0] child'] h0 (-> & Hd0 & m & -> & Hm & Hcp) Hcond.
    apply Z.ltb_lt in Hcond.
    destruct m as [|m].
    { change (SizeT.wrap (Z.of_nat 0 - 1)) with (SizeT.modulus - 1) in Hcond.
      lia. }
    assert (SizeT.wrap (Z.of_nat (S m) - 1) = Z.of_nat m) as Ei.
    { unfold SizeT.wrap. rewrite Z.mod_small; lia. }
    rewrite Ei in *.
    destruct (lookup_lt_is_Some_2 stack m) as [p Hp]; [lia|].
    destruct (lookup_lt_is_Some_2 key m) as [ch Hk]; [lia|].
    destruct (proj1 (Forall_lookup _ _) Hd0 _ _ Hp) as [n Hn].
    eexists (_, _, _), _. split; [|split].
    + cbn beta iota zeta. unfold bind, read, index, ret.
      rewrite Nat2Z.id, Hp, Hk. cbn beta iota.
      rewrite (Clone_Done _ _ _ Hn). cbn beta iota.
      rewrite set_child_fresh. reflexivity.
    + split; [done|]. split.
      { eapply Forall_impl; [exact Hd0|]. intros ?. apply derefs_app. }
      exists m. split.
      { unfold SizeT.dec, SizeT.wrap. done. }
      split; [lia|]. rewrite <- Hcp.
      rewrite (take_S_r _ _ (p, ch)).
      * rewrite reverse_snoc; simpl. by rewrite Hn.
      * rewrite lookup_zip_with, Hp, Hk. done.
    + cbn beta iota zeta.
      rewrite SizeT_inc_dec, SizeT_inc_nat; lia.
Qed.

(** *** [Put] is its three phases *)

Lemma walk_props h root key :
  closed val h -> valid val h root ->
  valid val h (walk val h root key).2 /\
  Forall (derefs h) (walk val h root key).1 /\
  (length (walk val h root key).1 <= length key)%nat.
Proof.
  intros Hc. revert root. induction key as [|c key IH]; intros root Hr.
  - simpl. repeat split; [done | constructor | lia].
  - destruct root as [a|]; [|simpl; repeat split; [constructor | lia]].
    destruct (deref_valid _ _ Hr) as [n Hn].
    rewrite (walk_cons _ _ _ _ _ Hn); simpl.
    destruct (IH (find_or_null (children_ n) c)) as (H1 & H2 & H3).
    { by eapply closed_find. }
    repeat split; [done | | lia].
    constructor; [|done]. exists n. by apply deref_Some.
Qed.

Lemma chain_ext cs child h :
  exists ext, (chain val cs child h).2 = h ++ ext.
Proof.
  revert child h. induction cs as [|c cs IH]; intros child h; simpl.
  - exists []. by rewrite app_nil_r.
  - destruct (IH (Some (length h))
      (h ++ [mkTrieNode {[c := child]} None])) as [ext ->].
    eexists. by rewrite <- app_assoc.
Qed.

Lemma chain_app cs1 cs2 child h :
  chain val (cs1 ++ cs2) child h =
    chain val cs2 (chain val cs1 child h).1 (chain val cs1 child h).2.
Proof.
  revert child h. induction cs1 as [|c cs1 IH]; intros child h; simpl;
    [done | apply IH].
Qed.

Lemma copy_app items1 items2 child h :
  Forall (fun x => derefs h x.1) items1 ->
  copy val (items1 ++ items2) child h =
    copy val items2 (copy val items1 child h).1 (copy val items1 child h).2.
Proof.
  revert child h. induction items1 as [|[p c] items1 IH]; intros child h Hd;
    simpl; [done|].
  apply Forall_cons in Hd as [[n Hn] Hd]; simpl in Hn.
  rewrite Hn. apply IH.
  eapply Forall_impl; [exact Hd|]. intros ?. apply derefs_app.
Qed.

Lemma copy_ext items child h :
  exists ext, (copy val items child h).2 = h ++ ext.
Proof.
  revert child h. induction items as [|[p c] items IH]; intros child h; simpl.
  - exists []. by rewrite app_nil_r.
  - destruct (deref h p) as [n| |];
      [|exists []; by rewrite app_nil_r|exists []; by rewrite app_nil_r].
    destruct (IH (Some (length h))
      (h ++ [mkTrieNode (<[c := child]> (children_ n)) (value_ n)]))
      as [ext ->].
    eexists. by rewrite <- app_assoc.
Qed.

Lemma Put_phases T t key (v : val T) h :
  closed val h -> valid val h (root_ t) ->
  Z.of_nat (length key) < SizeT.modulus ->
  Put val T t key v h =
    Done (mkTrie (put_phases val (existT T v) (root_ t) key h).1,
          (put_phases val (existT T v) (root_ t) key h).2).
Proof.
  intros Hc Hr Hlen. unfold Put, put_phases. cbn zeta.
  destruct (walk_props h (root_ t) key Hc Hr) as (Hcur & Hst & Hle).
  unfold bind at 1. rewrite store_old_path_walk by done.
  set (w := walk val h (root_ t) key) in *.
  unfold bind at 1.
  assert ((if negb (is_null w.2)
           then bind (read (fun h0 => deref h0 w.2))
                  (fun n => alloc (mkTrieNode (children_ n)
                                     (Some (existT T v))))
           else alloc (mkTrieNode ∅ (Some (existT T v)))) h =
          Done (Some (length h),
                h ++ [mkTrieNode (children_of val h w.2)
                        (Some (existT T v))])) as ->.
  { unfold children_of. destruct w.2 as [a|]; simpl; [|done].
    destruct (deref_valid _ _ Hcur) as [n Hn].
    unfold bind, read, alloc; simpl. by rewrite Hn. }
  set (h1 := h ++ _).
  destruct (create_inner_nodes_chain h1 key (length w.1) w.2
              (Some (length h))) as (ks & cur' & E); [done | done |].
  unfold bind at 1. rewrite E.
  set (ch := chain val _ _ h1) in *.
  destruct (copy_along_path_copy ch.2 key w.1 ch.1) as (i & E');
    [done | done | |].
  { destruct (chain_ext (reverse (drop (length w.1) key))
                (Some (length h)) h1) as [ext Hext].
    fold ch in Hext. rewrite Hext. unfold h1. rewrite <- app_assoc.
    eapply Forall_impl; [exact Hst|]. intros ?. apply derefs_app. }
  unfold bind. rewrite E'. reflexivity.
Qed.

(** *** The phases are the recursion on the key *)

Lemma put_rec_ext sv p key h :
  exists ext, (put_rec val sv p key h).2 = h ++ ext.
Proof.
  revert p h. induction key as [|c key IH]; intros p h; simpl.
  - by eexists.
  - destruct (IH (find_or_null (children_of val h p) c) h) as [ext Hext].
    destruct (put_rec val sv _ key h) as [child h1]; simpl in *. subst h1.
    eexists. by rewrite <- app_assoc.
Qed.

Lemma children_of_null h : children_of val h None = ∅.
Proof. done. Qed.

Lemma children_of_Some h a n :
  h !! a = Some n -> children_of val h (Some a) = children_ n.
Proof. intros E. unfold children_of; simpl. by rewrite E. Qed.

Lemma value_of_Some h a n :
  h !! a = Some n -> value_of val h (Some a) = value_ n.
Proof. intros E. unfold value_of; simpl. by rewrite E. Qed.

Lemma put_phases_null sv c key h :
  put_phases val sv None (c :: key) h =
    (Some (length (put_phases val sv None key h).2),
     (put_phases val sv None key h).2 ++
       [mkTrieNode {[ c := (put_phases val sv None key h).1 ]} None]).
Proof.
  unfold put_phases. rewrite !walk_null; simpl.
  rewrite !drop_0, reverse_cons, chain_app. simpl.
  by destruct (chain val (reverse key) _ _).
Qed.

Lemma put_phases_rec sv root key h :
  closed val h -> valid val h root ->
  put_phases val sv root key h = put_rec val sv root key h.
Proof.
  intros Hc. revert root. induction key as [|c key IH]; intros root Hr.
  - unfold put_phases; simpl. by destruct root.
  - destruct root as [a|].
    + destruct (deref_valid _ _ Hr) as [n Hn].
      simpl put_rec. rewrite (children_of_Some _ _ _ Hn), (value_of_Some _ _ _ Hn).
      rewrite <- IH by (by eapply closed_find).
      unfold put_phases. rewrite (walk_cons _ _ _ _ _ Hn).
      set (q := find_or_null (children_ n) c).
      destruct (walk_props h q key Hc) as (Hcur & Hst & Hle).
      { by eapply closed_find. }
      cbn zeta. simpl length. simpl drop. simpl zip.
      simpl fst. simpl snd.
      set (w := walk val h q key) in *.
      rewrite reverse_cons.
      set (h1 := h ++ _).
      set (ch := chain val _ _ h1).
      assert (exists ext, ch.2 = h ++ ext) as [ext Hext].
      { destruct (chain_ext (reverse (drop (length w.1) key))
                    (Some (length h)) h1) as [ext Hext].
        fold ch in Hext. rewrite Hext. unfold h1.
        rewrite <- app_assoc. by eexists. }
      rewrite copy_app.
      2:{ apply Forall_reverse, Forall_forall. intros [p' c'] Hin.
          apply elem_of_zip_l in Hin. simpl.
          rewrite Hext. apply derefs_app.
          by eapply (proj1 (Forall_forall _ _) Hst). }
      set (cp := copy val (reverse (zip w.1 key)) ch.1 ch.2).
      simpl.
      assert (cp.2 !! a = Some n) as ->.
      { destruct (copy_ext (reverse (zip w.1 key)) ch.1 ch.2) as [ext' Hext'].
        fold cp in Hext'. rewrite Hext', Hext, <- app_assoc.
        rewrite lookup_app_l; [done | by eapply lookup_lt_Some]. }
      by destruct cp.
    + rewrite put_phases_null, IH by done. simpl put_rec.
      rewrite children_of_null. unfold find_or_null.
      rewrite lookup_empty. unfold value_of; simpl.
      destruct (put_rec val sv None key h); simpl. by rewrite insert_empty.
Qed.

Lemma Put_put_rec T t key (v : val T) h :
  closed val h -> valid val h (root_ t) ->
  Z.of_nat (length key) < SizeT.modulus ->
  Put val T t key v h =
    Done (mkTrie (put_rec val (existT T v) (root_ t) key h).1,
          (put_rec val (existT T v) (root_ t) key h).2).
Proof.
  intros Hc Hr Hlen. rewrite Put_phases by done.
  by rewrite put_phases_rec.
Qed.

(** *** [Remove] is its phases, and the recursion on the key *)

Lemma Remove_phases t key h :
  closed val h -> valid val h (root_ t) ->
  Z.of_nat (length key) < SizeT.modulus ->
  Remove val t key h =
    Done (match remove_phases val (root_ t) key h with
          | Some (r, h') => (mkTrie r, h')
          | None => (t, h)
          end).
Proof.
  intros Hc Hr Hlen. unfold Remove, remove_phases. cbn zeta.
  destruct (walk_props h (root_ t) key Hc Hr) as (Hcur & Hst & Hle).
  unfold bind at 1. rewrite store_old_path_walk by done.
  set (w := walk val h (root_ t) key) in *.
  rewrite SizeT_of_nat_small by done.
  destruct (decide (length w.1 = length key)) as [El|Nl].
  2:{ assert ((Z.of_nat (length w.1) =? Z.of_nat (length key)) = false) as ->.
      { apply Z.eqb_neq. lia. }
      done. }
  assert ((Z.of_nat (length w.1) =? Z.of_nat (length key)) = true) as ->.
  { apply Z.eqb_eq. lia. }
  destruct w.2 as [a|] eqn:Ew; cbn [negb orb is_null]; [|done].
  destruct (deref_valid _ _ Hcur) as [n Hn].
  unfold bind at 1. unfold read at 1. cbn beta.
  rewrite (deref_Some _ _ _ Hn).
  rewrite (value_of_Some _ _ _ Hn), (children_of_Some _ _ _ Hn).
  unfold is_value_node_.
  destruct (value_ n) as [sv|]; cbn [negb]; [|done].
  unfold bind at 1.
  set (e := if decide (children_ n = ∅) then (None, h)
            else (Some (length h), h ++ [mkTrieNode (children_ n) None])).
  assert ((if decide (children_ n = ∅) then ret None
           else alloc (mkTrieNode (children_ n) None)) h = Done e) as ->.
  { unfold e. by destruct (decide (children_ n = ∅)). }
  destruct e as [e1 h1] eqn:Ee.
  assert (exists ext, h1 = h ++ ext) as [ext Hext].
  { unfold e in Ee. destruct (decide (children_ n = ∅)); inversion Ee;
      subst; [exists []; by rewrite app_nil_r | by eexists]. }
  destruct (copy_along_path_copy h1 key w.1 e1) as (i & E');
    [lia | done | |].
  { rewrite Hext. eapply Forall_impl; [exact Hst|].
    intros ?. apply derefs_app. }
  unfold bind. rewrite E'. simpl.
  by destruct (copy val (reverse (zip w.1 key)) e1 h1).
Qed.

Lemma remove_rec_ext p key h r h' :
  remove_rec val p key h = Some (r, h') -> exists ext, h' = h ++ ext.
Proof.
  revert p h r h'. induction key as [|c key IH]; intros p h r h' E;
    destruct p as [a|]; simpl in E; try done.
  - destruct (value_of val h (Some a)); [|done].
    destruct (decide (children_of val h (Some a) = ∅));
      inversion E; subst; [exists []; by rewrite app_nil_r | by eexists].
  - destruct (remove_rec val _ key h) as [[child h1]|] eqn:E1; [|done].
    inversion E; subst. destruct (IH _ _ _ _ E1) as [ext ->].
    eexists. by rewrite <- app_assoc.
Qed.

Lemma remove_phases_rec root key h :
  closed val h -> valid val h root ->
  remove_phases val root key h = remove_rec val root key h.
Proof.
  intros Hc. revert root. induction key as [|c key IH]; intros root Hr.
  - unfold remove_phases; simpl. destruct root as [a|]; [|done].
    destruct (value_of val h (Some a)); [|done].
    by destruct (decide (children_of val h (Some a) = ∅)).
  - destruct root as [a|].
    2:{ unfold remove_phases. by rewrite walk_null. }
    destruct (deref_valid _ _ Hr) as [n Hn].
    simpl remove_rec.
    rewrite (children_of_Some _ _ _ Hn), (value_of_Some _ _ _ Hn).
    rewrite <- IH by (by eapply closed_find).
    unfold remove_phases. rewrite (walk_cons _ _ _ _ _ Hn).
    set (q := find_or_null (children_ n) c).
    destruct (walk_props h q key Hc) as (Hcur & Hst & Hle).
    { by eapply closed_find. }
    cbn zeta. simpl length. simpl zip. simpl fst. simpl snd.
    set (w := walk val h q key) in *.
    destruct (decide (length w.1 = length key)) as [El|Nl].
    2:{ by rewrite decide_False by lia. }
    rewrite decide_True by lia.
    destruct w.2 as [a'|]; [|done].
    destruct (value_of val h (Some a')); [|done].
    set (e := if decide (children_of val h (Some a') = ∅) then (None, h)
              else _).
    assert (exists ext, e.2 = h ++ ext) as [ext Hext].
    { unfold e. destruct (decide (children_of val h (Some a') = ∅)); simpl;
        [exists []; by rewrite app_nil_r | by eexists]. }
    rewrite reverse_cons, copy_app.
    2:{ apply Forall_reverse, Forall_forall. intros [p' c'] Hin.
        apply elem_of_zip_l in Hin. simpl.
        rewrite Hext. apply derefs_app.
        by eapply (proj1 (Forall_forall _ _) Hst). }
    set (cp := copy val (reverse (zip w.1 key)) e.1 e.2).
    simpl.
    assert (cp.2 !! a = Some n) as ->.
    { destruct (copy_ext (reverse (zip w.1 key)) e.1 e.2) as [ext' Hext'].
      fold cp in Hext'. rewrite Hext', Hext, <- app_assoc.
      rewrite lookup_app_l; [done | by eapply lookup_lt_Some]. }
    by destruct cp.
Qed.

Lemma Remove_remove_rec t key h :
  closed val h -> valid val h (root_ t) ->
  Z.of_nat (length key) < SizeT.modulus ->
  Remove val t key h =
    Done (match remove_rec val (root_ t) key h with
          | Some (r, h') => (mkTrie r, h')
          | None => (t, h)
          end).
Proof.
  intros Hc Hr Hlen. rewrite Remove_phases by done.
  by rewrite remove_phases_rec.
Qed.

(** *** Reading through a freshly copied node *)

Lemma children_of_closed h p :
  closed val h -> map_Forall (fun _ q => valid val h q) (children_of val h p).
Proof.
  intros Hc. unfold children_of. destruct p as [a|]; simpl.
  - destruct (h !! a) as [n|] eqn:E; [|apply map_Forall_empty].
    by apply (proj1 (Forall_lookup _ _) Hc a n).
  - apply map_Forall_empty.
Qed.

Lemma Get_fresh_nil T h n :
  Get val T (mkTrie (Some (length h))) [] (h ++ [n]) =
    Done (dynamic_cast val T n).
Proof.
  rewrite Get_nil. unfold deref. rewrite lookup_app_r by lia.
  by rewrite Nat.sub_diag.
Qed.

Lemma Get_fresh_cons T h n c key :
  closed val h ->
  map_Forall (fun _ q => valid val h q) (children_ n) ->
  Get val T (mkTrie (Some (length h))) (c :: key) (h ++ [n]) =
    Get val T (mkTrie (find_or_null (children_ n) c)) key h.
Proof.
  intros Hc Hn. rewrite Get_cons. unfold deref.
  rewrite lookup_app_r by lia. rewrite Nat.sub_diag; simpl.
  unfold find_or_null.
  destruct (children_ n !! c) as [q|] eqn:E; [|by rewrite Get_null].
  apply Get_frame; [done|]. by apply (Hn c q).
Qed.

Lemma Get_nil_value T h p :
  valid val h p ->
  Get val T (mkTrie p) [] h =
    Done (dynamic_cast val T (mkTrieNode ∅ (value_of val h p))).
Proof.
  intros Hp. rewrite Get_nil. destruct p as [a|]; [|done].
  destruct (deref_valid _ _ Hp) as [n Hn].
  rewrite (value_of_Some _ _ _ Hn), (deref_Some _ _ _ Hn). done.
Qed.

(** The node that path copying puts above a rebuilt child: reads that
    leave the path at this node see the original, reads that follow it
    continue in the rebuilt child. *)
Section PathCopy.
Variables (h h1 : heap) (ext : heap) (p child : node_ptr) (c : ascii).
Hypothesis (Hc : closed val h) (Hp : valid val h p).
Hypothesis (Hext : h1 = h ++ ext) (Hc1 : closed val h1).
Hypothesis (Hchild : valid val h1 child).

Abbreviation n' :=
  (mkTrieNode (<[c := child]> (children_of val h p)) (value_of val h p)).

Lemma path_copy_children :
  map_Forall (fun _ q => valid val h1 q) (children_ n').
Proof.
  apply map_Forall_insert_2; [done|].
  eapply map_Forall_impl; [by apply children_of_closed|].
  intros c' q Hq. subst h1. by apply valid_app.
Qed.

Lemma path_copy_closed : closed val (h1 ++ [n']).
Proof.
  apply closed_snoc; [done|].
  eapply map_Forall_impl; [apply path_copy_children|].
  intros c' q Hq. by apply valid_app.
Qed.

Lemma Get_path_copy_nil T :
  Get val T (mkTrie (Some (length h1))) [] (h1 ++ [n']) =
    Get val T (mkTrie p) [] h.
Proof. by rewrite Get_fresh_nil, Get_nil_value. Qed.

Lemma Get_path_copy_on T key :
  Get val T (mkTrie (Some (length h1))) (c :: key) (h1 ++ [n']) =
    Get val T (mkTrie child) key h1.
Proof.
  rewrite Get_fresh_cons; [|done|apply path_copy_children].
  unfold find_or_null; simpl. by rewrite lookup_insert_eq.
Qed.

Lemma Get_path_copy_off T c' key :
  c' <> c ->
  Get val T (mkTrie (Some (length h1))) (c' :: key) (h1 ++ [n']) =
    Get val T (mkTrie p) (c' :: key) h.
Proof.
  intros Hne.
  rewrite Get_fresh_cons; [|done|apply path_copy_children].
  rewrite Get_find by done.
  unfold find_or_null at 1; simpl. rewrite lookup_insert_ne by done.
  fold (find_or_null (children_of val h p) c').
  subst h1. apply Get_frame; [done|]. by apply children_of_valid.
Qed.
End PathCopy.

(** *** What [Put] builds *)

Lemma put_rec_cons sv p c key h :
  put_rec val sv p (c :: key) h =
    (Some (length (put_rec val sv (find_or_null (children_of val h p) c) key h).2),
     (put_rec val sv (find_or_null (children_of val h p) c) key h).2 ++
       [mkTrieNode
          (<[c := (put_rec val sv (find_or_null (children_of val h p) c) key h).1]>
             (children_of val h p))
          (value_of val h p)]).
Proof. simpl. by destruct (put_rec val sv _ key h). Qed.

Lemma put_rec_closed sv p key h :
  closed val h ->
  closed val (put_rec val sv p key h).2 /\
  valid val (put_rec val sv p key h).2 (put_rec val sv p key h).1.
Proof.
  revert p h. induction key as [|c key IH]; intros p h Hc.
  - simpl. split; [|rewrite length_app; simpl; lia].
    apply closed_snoc; [done|].
    eapply map_Forall_impl; [by apply children_of_closed|].
    intros c' q Hq. by apply valid_app.
  - rewrite put_rec_cons. cbn [fst snd].
    set (q := find_or_null (children_of val h p) c).
    destruct (IH q h Hc) as [Hc1 Hv1].
    destruct (put_rec_ext sv q key h) as [ext Hext].
    split; [|simpl; rewrite length_app; simpl; lia].
    by eapply path_copy_closed.
Qed.

Lemma Get_put_rec_same T (v : val T) p key h :
  closed val h ->
  Get val T (mkTrie (put_rec val (existT T v) p key h).1) key
      (put_rec val (existT T v) p key h).2 = Done (Some v).
Proof.
  revert p h. induction key as [|c key IH]; intros p h Hc.
  - simpl. by rewrite Get_fresh_nil, dynamic_cast_same.
  - rewrite put_rec_cons. cbn [fst snd].
    set (q := find_or_null (children_of val h p) c).
    destruct (put_rec_closed (existT T v) q key h Hc) as [Hc1 Hv1].
    destruct (put_rec_ext (existT T v) q key h) as [ext Hext].
    erewrite Get_path_copy_on by done. by apply IH.
Qed.

Lemma Get_put_rec_other T sv p key key' h :
  closed val h -> valid val h p -> key' <> key ->
  Get val T (mkTrie (put_rec val sv p key h).1) key'
      (put_rec val sv p key h).2 = Get val T (mkTrie p) key' h.
Proof.
  intros Hc. revert p key'.
  induction key as [|c key IH]; intros p key' Hp Hne.
  - destruct key' as [|c' key']; [done|]. simpl.
    rewrite Get_fresh_cons; [|done|by apply children_of_closed].
    by rewrite Get_find.
  - rewrite put_rec_cons. cbn [fst snd].
    set (q := find_or_null (children_of val h p) c).
    destruct (put_rec_closed sv q key h Hc) as [Hc1 Hv1].
    destruct (put_rec_ext sv q key h) as [ext Hext].
    destruct key' as [|c' key'].
    + by erewrite Get_path_copy_nil.
    + destruct (decide (c' = c)) as [->|Hcc].
      * erewrite Get_path_copy_on by done.
        rewrite IH; [by rewrite Get_find | by apply children_of_valid |].
        congruence.
      * by erewrite Get_path_copy_off.
Qed.

(** *** What [Remove] builds *)

Lemma remove_rec_closed p key h r h' :
  closed val h -> remove_rec val p key h = Some (r, h') ->
  closed val h' /\ valid val h' r.
Proof.
  intros Hc. revert p r h'.
  induction key as [|c key IH]; intros p r h' E;
    destruct p as [a|]; simpl in E; try done.
  - destruct (value_of val h (Some a)); [|done].
    destruct (decide (children_of val h (Some a) = ∅));
      inversion E; subst; [done|].
    split; [|simpl; rewrite length_app; simpl; lia].
    apply closed_snoc; [done|].
    eapply map_Forall_impl; [by apply children_of_closed|].
    intros c' q Hq. by apply valid_app.
  - destruct (remove_rec val _ key h) as [[child h1]|] eqn:E1; [|done].
    inversion E; subst.
    destruct (IH _ _ _ E1) as [Hc1 Hv1].
    destruct (remove_rec_ext _ _ _ _ _ E1) as [ext Hext].
    split; [|simpl; rewrite length_app; simpl; lia].
    by eapply path_copy_closed.
Qed.

Lemma Get_remove_rec_same T p key h r h' :
  closed val h -> remove_rec val p key h = Some (r, h') ->
  Get val T (mkTrie r) key h' = Done None.
Proof.
  intros Hc. revert p r h'.
  induction key as [|c key IH]; intros p r h' E;
    destruct p as [a|]; simpl in E; try done.
  - destruct (value_of val h (Some a)); [|done].
    destruct (decide (children_of val h (Some a) = ∅));
      inversion E; subst; [by rewrite Get_nil|].
    by rewrite Get_fresh_nil.
  - destruct (remove_rec val _ key h) as [[child h1]|] eqn:E1; [|done].
    inversion E; subst.
    destruct (remove_rec_closed _ _ _ _ _ Hc E1) as [Hc1 Hv1].
    destruct (remove_rec_ext _ _ _ _ _ E1) as [ext Hext].
    erewrite Get_path_copy_on by done. by eapply IH.
Qed.

Lemma Get_remove_rec_None T p key h :
  valid val h p -> closed val h -> remove_rec val p key h = None ->
  Get val T (mkTrie p) key h = Done None.
Proof.
  intros Hp Hc. revert p Hp.
  induction key as [|c key IH]; intros p Hp E;
    (destruct p as [a|]; [|by rewrite Get_null]).
  - rewrite Get_nil_value by done. simpl in E.
    destruct (value_of val h (Some a)); [|done].
    by destruct (decide (children_of val h (Some a) = ∅)).
  - rewrite Get_find by done. apply IH; [by apply children_of_valid|].
    simpl in E. by destruct (remove_rec val _ key h) as [[child h1]|].
Qed.

Lemma Get_remove_rec_other T p key key' h r h' :
  closed val h -> valid val h p -> key' <> key ->
  remove_rec val p key h = Some (r, h') ->
  Get val T (mkTrie r) key' h' = Get val T (mkTrie p) key' h.
Proof.
  intros Hc. revert p key' r h'.
  induction key as [|c key IH]; intros p key' r h' Hp Hne E;
    destruct p as [a|]; simpl in E; try done.
  - destruct key' as [|c' key']; [done|].
    rewrite (Get_find _ _ (Some a)) by done.
    destruct (value_of val h (Some a)); [|done].
    destruct (decide (children_of val h (Some a) = ∅)) as [Ee|Ene];
      inversion E; subst.
    + rewrite Ee. unfold find_or_null. rewrite lookup_empty.
      by rewrite !Get_null.
    + rewrite Get_fresh_cons; [done|done|by apply children_of_closed].
  - destruct (remove_rec val _ key h) as [[child h1]|] eqn:E1; [|done].
    inversion E; subst.
    destruct (remove_rec_closed _ _ _ _ _ Hc E1) as [Hc1 Hv1].
    destruct (remove_rec_ext _ _ _ _ _ E1) as [ext Hext].
    destruct key' as [|c' key'].
    + by erewrite Get_path_copy_nil.
    + destruct (decide (c' = c)) as [->|Hcc].
      * erewrite Get_path_copy_on by done.
        erewrite IH; [by rewrite (Get_find _ _ (Some a))
                     | by apply children_of_valid | congruence | done].
      * by erewrite Get_path_copy_off.
Qed.

(** *** Every reachable store is closed *)

Lemma reachable_closed t h :
  reachable val t h -> closed val h /\ valid val h (root_ t).
Proof.
  induction 1 as [|T t key v h t' h' _ [Hc Hr] Hlen E
                  |t key h t' h' _ [Hc Hr] Hlen E].
  - split; [constructor | done].
  - rewrite Put_put_rec in E by done. inversion E; subst.
    by apply put_rec_closed.
  - rewrite Remove_remove_rec in E by done.
    destruct (remove_rec val (root_ t) key h) as [[r2 h2]|] eqn:E2;
      inversion E; subst; [|done].
    by eapply remove_rec_closed.
Qed.

(** *** No reachable node has an empty mapping and no value

    This is as far as the pruning of [Remove] goes: a mapping is never
    left empty, but its entries may all be null. *)

Lemma put_rec_mapping_or_value sv p key h :
  Forall mapping_or_value h ->
  Forall mapping_or_value (put_rec val sv p key h).2.
Proof.
  revert p h. induction key as [|c key IH]; intros p h Hh.
  - simpl. apply Forall_app. split; [done|].
    apply Forall_singleton. by left.
  - rewrite put_rec_cons. cbn [fst snd].
    apply Forall_app. split; [by apply IH|].
    apply Forall_singleton. right. simpl. apply insert_non_empty.
Qed.

Lemma remove_rec_mapping_or_value p key h r h' :
  Forall mapping_or_value h -> remove_rec val p key h = Some (r, h') ->
  Forall mapping_or_value h'.
Proof.
  intros Hh. revert p r h'.
  induction key as [|c key IH]; intros p r h' E;
    destruct p as [a|]; simpl in E; try done.
  - destruct (value_of val h (Some a)); [|done].
    destruct (decide (children_of val h (Some a) = ∅));
      inversion E; subst; [done|].
    apply Forall_app. split; [done|].
    apply Forall_singleton. by right.
  - destruct (remove_rec val _ key h) as [[child h1]|] eqn:E1; [|done].
    inversion E; subst.
    apply Forall_app. split; [by eapply IH|].
    apply Forall_singleton. right. simpl. apply insert_non_empty.
Qed.

Lemma reachable_mapping_or_value t h :
  reachable val t h -> Forall mapping_or_value h.
Proof.
  induction 1 as [|T t key v h t' h' Hreach IH Hlen E
                  |t key h t' h' Hreach IH Hlen E].
  - constructor.
  - destruct (reachable_closed _ _ Hreach) as [Hc Hr].
    rewrite Put_put_rec in E by done. inversion E; subst.
    by apply put_rec_mapping_or_value.
  - destruct (reachable_closed _ _ Hreach) as [Hc Hr].
    rewrite Remove_remove_rec in E by done.
    destruct (remove_rec val (root_ t) key h) as [[r2 h2]|] eqn:E2;
      inversion E; subst; [|done].
    by eapply remove_rec_mapping_or_value.
Qed.

(** *** The properties of the three operations *)

(** C1: on a closed store, for every version [t], every key (the empty
    key included) and every value [v] of type [T], [Put] runs to
    completion and [Get<T>] of the same key on the new version returns
    [v]. *)
Theorem Get_Put_same T t key (v : val T) h :
  closed val h -> valid val h (root_ t) ->
  Z.of_nat (length key) < SizeT.modulus ->
  exists t' h',
    Put val T t key v h = Done (t', h') /\
    Get val T t' key h' = Done (Some v).
Proof.
  intros Hc Hr Hlen. eexists _, _. split; [by apply Put_put_rec|].
  by apply Get_put_rec_same.
Qed.

(** C2: [Put] is non-destructive.  It only appends nodes to the store, so
    every node of the source version is left as it was and the source
    version reads the same on every key after the call; and on every key
    other than [key] the new version reads the same as the source. *)
Theorem Put_non_destructive T t key (v : val T) h :
  closed val h -> valid val h (root_ t) ->
  Z.of_nat (length key) < SizeT.modulus ->
  exists t' h' ext,
    Put val T t key v h = Done (t', h') /\
    h' = h ++ ext /\
    (forall U key', Get val U t key' h' = Get val U t key' h) /\
    (forall U key', key' <> key ->
       Get val U t' key' h' = Get val U t key' h').
Proof.
  intros Hc Hr Hlen.
  destruct (put_rec_ext (existT T v) (root_ t) key h) as [ext Hext].
  eexists _, _, ext. split; [by apply Put_put_rec|].
  split; [done|].
  assert (forall U key',
    Get val U t key' (put_rec val (existT T v) (root_ t) key h).2 =
      Get val U t key' h) as Hframe.
  { intros U key'. rewrite Hext. destruct t as [r]. by apply Get_frame. }
  split; [done|].
  intros U key' Hne. rewrite Hframe.
  destruct t as [r]. by apply Get_put_rec_other.
Qed.

(** C3: [Remove] of [key] right after [Put] of [key] gives a version that
    reads like the original on every other key and reads absent on
    [key]. *)
Theorem Remove_Put T t key (v : val T) h :
  closed val h -> valid val h (root_ t) ->
  Z.of_nat (length key) < SizeT.modulus ->
  exists t1 h1 t2 h2,
    Put val T t key v h = Done (t1, h1) /\
    Remove val t1 key h1 = Done (t2, h2) /\
    (forall U key', key' <> key ->
       Get val U t2 key' h2 = Get val U t key' h2) /\
    (forall U, Get val U t2 key h2 = Done None).
Proof.
  intros Hc Hr Hlen.
  destruct (put_rec_closed (existT T v) (root_ t) key h Hc) as [Hc1 Hv1].
  destruct (put_rec_ext (existT T v) (root_ t) key h) as [ext1 Hext1].
  pose proof (Get_put_rec_same T v (root_ t) key h Hc) as Hsame.
  pose proof (fun U key' => Get_put_rec_other U (existT T v) (root_ t) key
                key' h Hc Hr) as Hother.
  set (t1 := put_rec val (existT T v) (root_ t) key h) in *.
  destruct (remove_rec val t1.1 key t1.2) as [[r2 h2]|] eqn:E.
  2:{ rewrite (Get_remove_rec_None T _ _ _ Hv1 Hc1 E) in Hsame. done. }
  destruct (remove_rec_ext _ _ _ _ _ E) as [ext2 Hext2].
  exists (mkTrie t1.1), t1.2, (mkTrie r2), h2.
  split; [by apply Put_put_rec|].
  split; [rewrite Remove_remove_rec by done; simpl; by rewrite E|].
  split.
  - intros U key' Hne.
    rewrite (Get_remove_rec_other U _ _ _ _ _ _ Hc1 Hv1 Hne E).
    rewrite Hother by done.
    rewrite Hext2, Hext1, <- app_assoc. destruct t as [r].
    symmetry. by apply Get_frame.
  - intros U. by eapply Get_remove_rec_same.
Qed.

(** C5: when the walk for [key] from the root of [t] does not end on a
    value node, that is the key is not fully matched (fewer nodes are
    walked than the key has characters), or the landing reference is null,
    or the landing node holds no value, [Remove] returns the version it
    was called on, with the same root reference, and allocates nothing. *)
Theorem Remove_absent_noop t key h :
  closed val h -> valid val h (root_ t) ->
  Z.of_nat (length key) < SizeT.modulus ->
  length (walk val h (root_ t) key).1 <> length key \/
  (walk val h (root_ t) key).2 = None \/
  value_of val h (walk val h (root_ t) key).2 = None ->
  Remove val t key h = Done (t, h).
Proof.
  intros Hc Hr Hlen Habs. rewrite Remove_phases by done.
  unfold remove_phases. cbn zeta.
  destruct (decide _) as [El|]; [|done].
  destruct Habs as [Hn | [-> | Hv]]; [done | done |].
  rewrite Hv. by destruct (walk val h (root_ t) key).2.
Qed.

Lemma Get_cast_other T U t key (v : val T) h :
  Get val T t key h = Done (Some v) -> U <> T ->
  Get val U t key h = Done None.
Proof.
  unfold Get. intros HT Hne.
  destruct (Get_loop h (root_ t) key) as [[node|]| |]; simpl in *; try done.
  destruct node as [a|]; simpl in *; [|done].
  destruct (h !! a) as [n|]; simpl in *; [|done].
  destruct (is_value_node_ n); simpl in *; [|done].
  f_equal. unfold dynamic_cast in *.
  destruct (value_ n) as [[T' v']|]; [|done].
  destruct (decide (T' = T)) as [->|]; [|done].
  by destruct (decide (T = U)) as [<-|].
Qed.

(** C6: if the value stored under [key] has type [T] (so that [Get<T>]
    returns it), then [Get<U>] for any other type [U] returns absent. *)
Theorem Get_type_mismatch T U t key (v : val T) h :
  Get val T t key h = Done (Some v) -> U <> T ->
  Get val U t key h = Done None.
Proof. apply Get_cast_other. Qed.

(** C8: after two [Put]s on the same key with values of different types,
    [Get] at the second type returns the second value and [Get] at the
    first type returns absent. *)
Theorem Put_Put_retype T1 T2 t key (v1 : val T1) (v2 : val T2) h :
  closed val h -> valid val h (root_ t) ->
  Z.of_nat (length key) < SizeT.modulus ->
  T1 <> T2 ->
  exists t1 h1 t2 h2,
    Put val T1 t key v1 h = Done (t1, h1) /\
    Put val T2 t1 key v2 h1 = Done (t2, h2) /\
    Get val T2 t2 key h2 = Done (Some v2) /\
    Get val T1 t2 key h2 = Done None.
Proof.
  intros Hc Hr Hlen Hne.
  destruct (put_rec_closed (existT T1 v1) (root_ t) key h Hc) as [Hc1 Hv1].
  eexists _, _, _, _.
  split; [by apply Put_put_rec|].
  split; [by apply Put_put_rec|].
  simpl root_.
  pose proof (Get_put_rec_same T2 v2
    (put_rec val (existT T1 v1) (root_ t) key h).1 key _ Hc1) as Hsame.
  split; [done|]. by eapply Get_cast_other.
Qed.

(** On a closed store the loops of the three operations stay within the
    key length: none of them runs out of its iteration bound, and none
    faults. *)
Lemma loops_bounded T t key (v : val T) h :
  closed val h -> valid val h (root_ t) ->
  Z.of_nat (length key) < SizeT.modulus ->
  (exists r, Get val T t key h = Done r) /\
  (exists r, Put val T t key v h = Done r) /\
  (exists r, Remove val t key h = Done r).
Proof.
  intros Hc Hr Hlen. split; [|split].
  - destruct t as [r]. by apply Get_total.
  - eexists. by apply Put_put_rec.
  - eexists. by apply Remove_remove_rec.
Qed.

(** C9, amended: on a closed store every call of [Get] and of [Remove] runs
    to completion, and a call of [Put] runs to completion exactly when the
    move of the value into shared storage (line 41) returns; each loop is
    given the key length as its iteration bound and never exceeds it. *)
Theorem operations_terminate
    (move_ctor : forall T : ty, val T -> option (val T))
    T t key (v : val T) h :
  closed val h -> valid val h (root_ t) ->
  Z.of_nat (length key) < SizeT.modulus ->
  (exists r, Get val T t key h = Done r) /\
  (exists r, Remove val t key h = Done r) /\
  (forall stored, move_ctor T v = Some stored ->
     exists r, Put_call val move_ctor T t key v h = Some (Done r)) /\
  (move_ctor T v = None -> Put_call val move_ctor T t key v h = None).
Proof.
  intros Hc Hr Hlen.
  destruct (loops_bounded T t key v h Hc Hr Hlen) as (HG & _ & HR).
  split; [done|]. split; [done|]. unfold Put_call. split.
  - intros stored ->.
    destruct (loops_bounded T t key stored h Hc Hr Hlen) as (_ & [r HP] & _).
    exists r. by rewrite HP.
  - by intros ->.
Qed.

(** C10: on a closed store [Get] never faults, whatever the key; and when
    a key is routed through a children entry bound to [nullptr] (the walk
    along [pre] reaches a node whose entry for [c] is null), [Get] returns
    absent. *)
Theorem Get_null_entry T t pre c rest a n h :
  closed val h -> valid val h (root_ t) ->
  Get_loop h (root_ t) pre = Done (Some (Some a)) ->
  h !! a = Some n ->
  children_ n !! c = Some None ->
  Get val T t (pre ++ c :: rest) h = Done None /\
  (forall key, exists r, Get val T t key h = Done r).
Proof.
  intros Hc Hr Hpre Ha Hentry. split.
  - clear Hc Hr. destruct t as [r]; simpl in *. revert r Hpre.
    induction pre as [|c' pre IH]; intros r Hpre.
    + simpl in Hpre. inversion Hpre; subst.
      simpl app. rewrite Get_cons, (deref_Some _ _ _ Ha); simpl.
      by rewrite Hentry, Get_null.
    + simpl app. rewrite Get_cons. simpl in Hpre.
      destruct r as [b|]; simpl in *; [|done].
      destruct (h !! b) as [m|]; simpl in *; [|done].
      destruct (children_ m !! c') as [q|]; [|done].
      by apply IH.
  - intros key. destruct t as [r]. by apply Get_total.
Qed.

End Proofs.

(** ** The operations at concrete inputs *)

Example Put_ab_layout :
  Put Inst.value Inst.UInt32 Inst.empty ["a"; "b"]%char 1 [] =
    Done (Inst.trie_ab, Inst.store_ab).
Proof. vm_compute. reflexivity. Qed.

(** The scenario of the specification: three insertions, then a removal. *)
Example scenario_Put_Put_Put_Remove :
  exists t3 h3 t4 h4,
    bind (Put Inst.value Inst.UInt32 Inst.empty ["a"]%char 1)
      (fun t1 => bind (Put Inst.value Inst.UInt32 t1 ["a"; "b"]%char 2)
         (fun t2 => Put Inst.value Inst.UInt32 t2 ["a"; "c"]%char 3)) [] =
      Done (t3, h3) /\
    Get Inst.value Inst.UInt32 t3 ["a"]%char h3 = Done (Some 1) /\
    Get Inst.value Inst.UInt32 t3 ["a"; "b"]%char h3 = Done (Some 2) /\
    Get Inst.value Inst.UInt32 t3 ["a"; "c"]%char h3 = Done (Some 3) /\
    Get Inst.value Inst.UInt32 t3 ["a"; "b"; "c"]%char h3 = Done None /\
    Remove Inst.value t3 ["a"; "b"]%char h3 = Done (t4, h4) /\
    Get Inst.value Inst.UInt32 t4 ["a"; "b"]%char h4 = Done None /\
    Get Inst.value Inst.UInt32 t4 ["a"]%char h4 = Done (Some 1) /\
    Get Inst.value Inst.UInt32 t4 ["a"; "c"]%char h4 = Done (Some 3).
Proof.
  eexists _, _, _, _.
  split; [vm_compute; reflexivity|].
  do 4 (split; [vm_compute; reflexivity|]).
  split; [vm_compute; reflexivity|].
  repeat split; vm_compute; reflexivity.
Qed.

(** The empty key addresses the root itself. *)
Example Put_Get_empty_key :
  exists t' h',
    Put Inst.value Inst.StdString Inst.trie_ab [] "root"%string Inst.store_ab =
      Done (t', h') /\
    Get Inst.value Inst.StdString t' [] h' = Done (Some "root"%string) /\
    Get Inst.value Inst.UInt32 t' ["a"; "b"]%char h' = Done (Some 1).
Proof.
  eexists _, _. split; [vm_compute; reflexivity|].
  split; vm_compute; reflexivity.
Qed.

Lemma store_ab_closed : closed Inst.value Inst.store_ab.
Proof. apply (bool_decide_unpack _). vm_compute. exact I. Defined.

Lemma store_null_closed : closed Inst.value Inst.store_null.
Proof. apply (bool_decide_unpack _). vm_compute. exact I. Defined.

Lemma Get_Put_same_witness :
  closed Inst.value Inst.store_ab /\
  valid Inst.value Inst.store_ab (root_ Inst.trie_ab) /\
  Z.of_nat (length ["a"; "c"]%char) < SizeT.modulus /\
  exists t' h',
    Put Inst.value Inst.UInt64 Inst.trie_ab ["a"; "c"]%char 5 Inst.store_ab =
      Done (t', h') /\
    Get Inst.value Inst.UInt64 t' ["a"; "c"]%char h' = Done (Some 5).
Proof.
  split; [exact store_ab_closed|]. split; [vm_compute; lia|].
  split; [reflexivity|].
  apply (Get_Put_same Inst.value Inst.UInt64 Inst.trie_ab ["a"; "c"]%char 5
           Inst.store_ab); [exact store_ab_closed | vm_compute; lia | reflexivity].
Defined.

Lemma Put_non_destructive_witness :
  closed Inst.value Inst.store_ab /\
  valid Inst.value Inst.store_ab (root_ Inst.trie_ab) /\
  Z.of_nat (length ["a"]%char) < SizeT.modulus /\
  exists t' h' ext,
    Put Inst.value Inst.StdString Inst.trie_ab ["a"]%char "x"%string
        Inst.store_ab = Done (t', h') /\
    h' = Inst.store_ab ++ ext /\
    (forall U key', Get Inst.value U Inst.trie_ab key' h' =
                    Get Inst.value U Inst.trie_ab key' Inst.store_ab) /\
    (forall U key', key' <> ["a"]%char ->
       Get Inst.value U t' key' h' = Get Inst.value U Inst.trie_ab key' h').
Proof.
  split; [exact store_ab_closed|]. split; [vm_compute; lia|].
  split; [reflexivity|].
  apply (Put_non_destructive Inst.value Inst.StdString Inst.trie_ab
           ["a"]%char "x"%string Inst.store_ab);
    [exact store_ab_closed | vm_compute; lia | reflexivity].
Defined.

Lemma Remove_Put_witness :
  closed Inst.value Inst.store_ab /\
  valid Inst.value Inst.store_ab (root_ Inst.trie_ab) /\
  Z.of_nat (length ["a"]%char) < SizeT.modulus /\
  exists t1 h1 t2 h2,
    Put Inst.value Inst.UInt32 Inst.trie_ab ["a"]%char 9 Inst.store_ab =
      Done (t1, h1) /\
    Remove Inst.value t1 ["a"]%char h1 = Done (t2, h2) /\
    (forall U key', key' <> ["a"]%char ->
       Get Inst.value U t2 key' h2 = Get Inst.value U Inst.trie_ab key' h2) /\
    (forall U, Get Inst.value U t2 ["a"]%char h2 = Done None).
Proof.
  split; [exact store_ab_closed|]. split; [vm_compute; lia|].
  split; [reflexivity|].
  apply (Remove_Put Inst.value Inst.UInt32 Inst.trie_ab ["a"]%char 9
           Inst.store_ab);
    [exact store_ab_closed | vm_compute; lia | reflexivity].
Defined.

Lemma Remove_absent_noop_witness :
  closed Inst.value Inst.store_ab /\
  valid Inst.value Inst.store_ab (root_ Inst.trie_ab) /\
  Z.of_nat (length ["a"]%char) < SizeT.modulus /\
  walk Inst.value Inst.store_ab (root_ Inst.trie_ab) ["a"]%char =
    ([Some 2%nat], Some 1%nat) /\
  value_of Inst.value Inst.store_ab (Some 1%nat) = None /\
  Remove Inst.value Inst.trie_ab ["a"]%char Inst.store_ab =
    Done (Inst.trie_ab, Inst.store_ab).
Proof.
  split; [exact store_ab_closed|]. split; [vm_compute; lia|].
  split; [reflexivity|]. split; [reflexivity|]. split; [reflexivity|].
  apply (Remove_absent_noop Inst.value Inst.trie_ab ["a"]%char Inst.store_ab);
    [exact store_ab_closed | vm_compute; lia | reflexivity |].
  right. right. reflexivity.
Defined.

Lemma Get_type_mismatch_witness :
  Get Inst.value Inst.UInt32 Inst.trie_ab ["a"; "b"]%char Inst.store_ab =
    Done (Some 1) /\
  Inst.UInt64 <> Inst.UInt32 /\
  Get Inst.value Inst.UInt64 Inst.trie_ab ["a"; "b"]%char Inst.store_ab =
    Done None.
Proof.
  split; [reflexivity|]. split; [discriminate|].
  apply (Get_type_mismatch Inst.value Inst.UInt32 Inst.UInt64 Inst.trie_ab
           ["a"; "b"]%char 1 Inst.store_ab); [reflexivity | discriminate].
Defined.

Lemma Put_Put_retype_witness :
  closed Inst.value Inst.store_ab /\
  valid Inst.value Inst.store_ab (root_ Inst.trie_ab) /\
  Z.of_nat (length ["a"; "b"]%char) < SizeT.modulus /\
  Inst.UInt64 <> Inst.StdString /\
  exists t1 h1 t2 h2,
    Put Inst.value Inst.UInt64 Inst.trie_ab ["a"; "b"]%char 7 Inst.store_ab =
      Done (t1, h1) /\
    Put Inst.value Inst.StdString t1 ["a"; "b"]%char "seven"%string h1 =
      Done (t2, h2) /\
    Get Inst.value Inst.StdString t2 ["a"; "b"]%char h2 =
      Done (Some "seven"%string) /\
    Get Inst.value Inst.UInt64 t2 ["a"; "b"]%char h2 = Done None.
Proof.
  split; [exact store_ab_closed|]. split; [vm_compute; lia|].
  split; [reflexivity|]. split; [discriminate|].
  apply (Put_Put_retype Inst.value Inst.UInt64 Inst.StdString Inst.trie_ab
           ["a"; "b"]%char 7 "seven"%string Inst.store_ab);
    [exact store_ab_closed | vm_compute; lia | reflexivity | discriminate].
Defined.

Lemma operations_terminate_witness :
  closed Inst.value Inst.store_ab /\
  valid Inst.value Inst.store_ab (root_ Inst.trie_ab) /\
  Z.of_nat (length ["a"; "b"; "c"]%char) < SizeT.modulus /\
  (exists r, Get Inst.value Inst.MoveBlocked Inst.trie_ab
               ["a"; "b"; "c"]%char Inst.store_ab = Done r) /\
  (exists r, Remove Inst.value Inst.trie_ab ["a"; "b"; "c"]%char
               Inst.store_ab = Done r) /\
  (forall stored, Inst.move_ctor Inst.MoveBlocked true = Some stored ->
     exists r, Put_call Inst.value Inst.move_ctor Inst.MoveBlocked
                 Inst.trie_ab ["a"; "b"; "c"]%char true Inst.store_ab =
               Some (Done r)) /\
  (Inst.move_ctor Inst.MoveBlocked true = None ->
   Put_call Inst.value Inst.move_ctor Inst.MoveBlocked Inst.trie_ab
     ["a"; "b"; "c"]%char true Inst.store_ab = None).
Proof.
  split; [exact store_ab_closed|]. split; [vm_compute; lia|].
  split; [reflexivity|].
  apply (operations_terminate Inst.value Inst.move_ctor Inst.MoveBlocked
           Inst.trie_ab ["a"; "b"; "c"]%char true Inst.store_ab);
    [exact store_ab_closed | vm_compute; lia | reflexivity].
Defined.

(** C9 as it was stated fails at [Put<MoveBlocked>], the instantiation of
    line 143: on the empty trie, with a value whose future never becomes
    ready, the move of line 41 does not return, and so neither does the
    call. *)
Lemma Put_MoveBlocked_blocks :
  closed Inst.value [] /\
  valid Inst.value [] (root_ Inst.empty) /\
  Z.of_nat (length ["a"]%char) < SizeT.modulus /\
  Put_call Inst.value Inst.move_ctor Inst.MoveBlocked Inst.empty ["a"]%char
    false [] = None /\
  ~ (exists r,
       Put_call Inst.value Inst.move_ctor Inst.MoveBlocked Inst.empty
         ["a"]%char false [] = Some (Done r)).
Proof.
  split; [constructor|]. split; [exact I|]. split; [reflexivity|].
  split; [reflexivity|]. intros [r Hr]. discriminate Hr.
Qed.

Lemma Get_null_entry_witness :
  closed Inst.value Inst.store_null /\
  valid Inst.value Inst.store_null (root_ Inst.trie_null) /\
  Get_loop Inst.store_null (root_ Inst.trie_null) ["a"]%char =
    Done (Some (Some 0%nat)) /\
  Inst.store_null !! 0%nat = Some (mkTrieNode {[ "b"%char := None ]} None) /\
  ({[ "b"%char := None ]} : gmap ascii node_ptr) !! "b"%char = Some None /\
  Get Inst.value Inst.UInt32 Inst.trie_null ["a"; "b"; "c"]%char
    Inst.store_null = Done None /\
  (forall key, exists r,
     Get Inst.value Inst.UInt32 Inst.trie_null key Inst.store_null = Done r).
Proof.
  split; [exact store_null_closed|]. split; [vm_compute; lia|].
  split; [reflexivity|]. split; [reflexivity|]. split; [reflexivity|].
  apply (Get_null_entry Inst.value Inst.UInt32 Inst.trie_null ["a"]%char
           "b"%char ["c"]%char 0%nat
           (mkTrieNode {[ "b"%char := None ]} None) Inst.store_null);
    [exact store_null_closed | vm_compute; lia | reflexivity | reflexivity
    | reflexivity].
Defined.

(** C4, at [Put("a", 1)] on the empty trie followed by [Remove("a")]: the
    walk of [Remove] lands on a value node without children and the terminal
    replacement is absent, but the cloned root keeps its entry for ['a'],
    now bound to [nullptr]: line 113 assigns the replacement to
    [children_[key[i]]] whether or not it is null, and no entry is ever
    erased.  The new root is not absent either. *)
Theorem Remove_leaves_null_entry :
  let h1 : list (TrieNode Inst.value) :=
    [ mkTrieNode ∅ (Some (existT Inst.UInt32 1));
      mkTrieNode {[ "a"%char := Some 0%nat ]} None ] in
  let t1 := mkTrie (Some 1%nat) in
  Put Inst.value Inst.UInt32 Inst.empty ["a"]%char 1 [] = Done (t1, h1) /\
  walk Inst.value h1 (root_ t1) ["a"]%char = ([Some 1%nat], Some 0%nat) /\
  children_of Inst.value h1 (Some 0%nat) = ∅ /\
  value_of Inst.value h1 (Some 0%nat) = Some (existT Inst.UInt32 1) /\
  Remove Inst.value t1 ["a"]%char h1 =
    Done (mkTrie (Some 2%nat),
          h1 ++ [mkTrieNode {[ "a"%char := None ]} None]) /\
  children_ (mkTrieNode (val := Inst.value) {[ "a"%char := None ]} None)
    !! "a"%char = Some None.
Proof. vm_compute. repeat split. Qed.

(** C7, at [Put("ab", 1)] on the empty trie followed by [Remove("ab")]: the
    version this reaches has, below its root, the node for ["a"], which
    holds no value and whose only entry is bound to [nullptr].  The same
    assignment on line 113 is at work: ancestors are cloned and kept, never
    pruned. *)
Theorem reachable_childless_valueless_node :
  let h := Inst.store_ab ++
             [ mkTrieNode {[ "b"%char := None ]} None;
               mkTrieNode {[ "a"%char := Some 3%nat ]} None ] in
  let t := mkTrie (Some 4%nat) in
  reachable Inst.value t h /\
  exists nr n,
    h !! 4%nat = Some nr /\
    children_ nr !! "a"%char = Some (Some 3%nat) /\
    h !! 3%nat = Some n /\
    is_value_node_ n = false /\
    children_ n = {[ "b"%char := None ]} /\
    childless Inst.value n.
Proof.
  split.
  - eapply (reachable_Remove Inst.value Inst.trie_ab ["a"; "b"]%char
              Inst.store_ab).
    + eapply (reachable_Put Inst.value Inst.UInt32 Inst.empty ["a"; "b"]%char
                1 []).
      * apply reachable_empty.
      * reflexivity.
      * vm_compute. reflexivity.
    + reflexivity.
    + vm_compute. reflexivity.
  - eexists _, _. repeat split.
    apply (bool_decide_unpack _). vm_compute. exact I.
Qed.


(** ** Further properties of [Get], [Put] and [Remove] *)

Section More.
Context {ty : Type} `{!EqDecision ty} (val : ty -> Type).

Abbreviation TrieNode := (TrieNode val).
Abbreviation heap := (list TrieNode).

Implicit Types (h : heap) (p q cur child : node_ptr) (n : TrieNode)
  (key : list ascii) (c : ascii) (t : Trie).

(** *** What the two updates leave readable *)

Lemma Get_put_rec_same_any U sv p key h :
  closed val h ->
  Get val U (mkTrie (put_rec val sv p key h).1) key (put_rec val sv p key h).2 =
    Done (stored_as val U sv).
Proof.
  revert p h. induction key as [|c key IH]; intros p h Hc.
  - simpl. rewrite Get_fresh_nil. reflexivity.
  - rewrite put_rec_cons. cbn [fst snd].
    set (q := find_or_null (children_of val h p) c).
    destruct (put_rec_closed val sv q key h Hc) as [Hc1 Hv1].
    destruct (put_rec_ext val sv q key h) as [ext Hext].
    erewrite Get_path_copy_on by done. by apply IH.
Qed.

Lemma Put_reads T t key (v : val T) h :
  closed val h -> valid val h (root_ t) ->
  Z.of_nat (length key) < SizeT.modulus ->
  exists t' h' ext,
    Put val T t key v h = Done (t', h') /\
    h' = h ++ ext /\ closed val h' /\ valid val h' (root_ t') /\
    (forall U, Get val U t' key h' = Done (stored_as val U (existT T v))) /\
    (forall U key', key' <> key ->
       Get val U t' key' h' = Get val U t key' h).
Proof.
  intros Hc Hr Hlen.
  destruct (put_rec_ext val (existT T v) (root_ t) key h) as [ext Hext].
  destruct (put_rec_closed val (existT T v) (root_ t) key h Hc) as [Hc1 Hv1].
  eexists _, _, ext. split; [by apply Put_put_rec|].
  repeat split; try done.
  - intros U. by apply Get_put_rec_same_any.
  - intros U key' Hne. destruct t as [r]. by apply Get_put_rec_other.
Qed.

Lemma Remove_reads t key h :
  closed val h -> valid val h (root_ t) ->
  Z.of_nat (length key) < SizeT.modulus ->
  exists t' h' ext,
    Remove val t key h = Done (t', h') /\
    h' = h ++ ext /\ closed val h' /\ valid val h' (root_ t') /\
    (forall U, Get val U t' key h' = Done None) /\
    (forall U key', key' <> key ->
       Get val U t' key' h' = Get val U t key' h).
Proof.
  intros Hc Hr Hlen. rewrite Remove_remove_rec by done.
  destruct (remove_rec val (root_ t) key h) as [[r h']|] eqn:E.
  - destruct (remove_rec_ext val _ _ _ _ _ E) as [ext Hext].
    destruct (remove_rec_closed val _ _ _ _ _ Hc E) as [Hc1 Hv1].
    exists (mkTrie r), h', ext. repeat split; try done.
    + intros U. exact (Get_remove_rec_same val U _ _ _ _ _ Hc E).
    + intros U key' Hne. destruct t as [r0].
      exact (Get_remove_rec_other val U _ _ _ _ _ _ Hc Hr Hne E).
  - exists t, h, []. rewrite app_nil_r. repeat split; try done.
    intros U. destruct t as [r0]. by apply Get_remove_rec_None.
Qed.

(** X1: [Remove] is non-destructive, whether or not the key is present: it
    only appends nodes to the store, the source version reads the same on
    every key afterwards, and the result reads like the source on every
    key other than [key]. *)
Theorem Remove_non_destructive t key h :
  closed val h -> valid val h (root_ t) ->
  Z.of_nat (length key) < SizeT.modulus ->
  exists t' h' ext,
    Remove val t key h = Done (t', h') /\
    h' = h ++ ext /\
    (forall U key', Get val U t key' h' = Get val U t key' h) /\
    (forall U key', key' <> key ->
       Get val U t' key' h' = Get val U t key' h').
Proof.
  intros Hc Hr Hlen.
  destruct (Remove_reads t key h Hc Hr Hlen)
    as (t' & h' & ext & E & -> & Hc' & Hr' & Hsame & Hother).
  exists t', (h ++ ext), ext. split; [done|]. split; [done|].
  assert (forall U key', Get val U t key' (h ++ ext) = Get val U t key' h)
    as Hframe.
  { intros U key'. destruct t as [r]. by apply Get_frame. }
  split; [done|]. intros U key' Hne. by rewrite Hframe, Hother.
Qed.

(** X2: after [Remove] the key reads absent at every type, whatever the
    version held under it before. *)
Theorem Get_Remove_same t key h :
  closed val h -> valid val h (root_ t) ->
  Z.of_nat (length key) < SizeT.modulus ->
  exists t' h',
    Remove val t key h = Done (t', h') /\
    forall U, Get val U t' key h' = Done None.
Proof.
  intros Hc Hr Hlen.
  destruct (Remove_reads t key h Hc Hr Hlen)
    as (t' & h' & ext & E & _ & _ & _ & Hsame & _).
  by exists t', h'.
Qed.

(** *** When [Remove] changes nothing *)

Lemma remove_rec_Some_Get p key h r h' :
  closed val h -> valid val h p ->
  remove_rec val p key h = Some (r, h') ->
  exists T (v : val T), Get val T (mkTrie p) key h = Done (Some v).
Proof.
  intros Hc. revert p r h'.
  induction key as [|c key IH]; intros p r h' Hp E;
    destruct p as [a|]; simpl in E; try done.
  - destruct (value_of val h (Some a)) as [[T v]|] eqn:Ev; [|done].
    exists T, v. rewrite Get_nil_value by done. rewrite Ev.
    by rewrite dynamic_cast_same.
  - destruct (remove_rec val _ key h) as [[child h1]|] eqn:E1; [|done].
    destruct (IH _ _ _ (children_of_valid val h (Some a) c Hc) E1)
      as (T & v & HG).
    exists T, v. by rewrite Get_find.
Qed.

Lemma remove_rec_length p key h r h' :
  remove_rec val p key h = Some (r, h') ->
  (length h + length key <= length h' <= length h + length key + 1)%nat.
Proof.
  revert p r h'.
  induction key as [|c key IH]; intros p r h' E;
    destruct p as [a|]; simpl in E; try done.
  - destruct (value_of val h (Some a)); [|done].
    destruct (decide (children_of val h (Some a) = ∅));
      inversion E; subst; [simpl; lia|].
    rewrite length_app; simpl; lia.
  - destruct (remove_rec val _ key h) as [[child h1]|] eqn:E1; [|done].
    inversion E; subst. apply IH in E1.
    rewrite length_app; simpl; lia.
Qed.

Lemma remove_rec_changes p key h r h' :
  remove_rec val p key h = Some (r, h') -> r = p -> h' = h -> False.
Proof.
  intros E -> ->. pose proof (remove_rec_length _ _ _ _ _ E) as Hl.
  destruct key as [|c key]; [|simpl in Hl; lia].
  destruct p as [a|]; simpl in E; [|done].
  destruct (value_of val h (Some a)); [|done].
  destruct (decide (children_of val h (Some a) = ∅)); inversion E.
  assert (length h = length (h ++ [mkTrieNode (children_of val h (Some a)) None]))
    as Hlen by congruence.
  rewrite length_app in Hlen; simpl in Hlen. lia.
Qed.

Lemma Remove_noop_of_absent t key h :
  closed val h -> valid val h (root_ t) ->
  Z.of_nat (length key) < SizeT.modulus ->
  (forall U, Get val U t key h = Done None) ->
  Remove val t key h = Done (t, h).
Proof.
  intros Hc Hr Hlen Habs. rewrite Remove_remove_rec by done.
  destruct (remove_rec val (root_ t) key h) as [[r h']|] eqn:E; [|done].
  destruct (remove_rec_Some_Get _ _ _ _ _ Hc Hr E) as (T & v & HG).
  destruct t as [r0]. simpl in HG. rewrite Habs in HG. done.
Qed.

(** X3: [Remove] returns the version it was called on, and leaves the store
    as it is, exactly when [Get] finds no value of any type under the
    key. *)
Theorem Remove_noop_iff t key h :
  closed val h -> valid val h (root_ t) ->
  Z.of_nat (length key) < SizeT.modulus ->
  Remove val t key h = Done (t, h) <->
  (forall U, Get val U t key h = Done None).
Proof.
  intros Hc Hr Hlen. split; [|by apply Remove_noop_of_absent].
  rewrite Remove_remove_rec by done.
  destruct (remove_rec val (root_ t) key h) as [[r h']|] eqn:E.
  - intros Heq. inversion Heq as [[Ht Hh]]. destruct t as [r0]; simpl in *.
    inversion Ht; subst. by destruct (remove_rec_changes _ _ _ _ _ E).
  - intros _ U. destruct t as [r0]. by apply Get_remove_rec_None.
Qed.

(** X4: [Remove] is idempotent: removing the same key again returns the
    same version and allocates nothing. *)
Theorem Remove_idempotent t key h :
  closed val h -> valid val h (root_ t) ->
  Z.of_nat (length key) < SizeT.modulus ->
  exists t' h',
    Remove val t key h = Done (t', h') /\
    Remove val t' key h' = Done (t', h').
Proof.
  intros Hc Hr Hlen.
  destruct (Remove_reads t key h Hc Hr Hlen)
    as (t' & h' & ext & E & _ & Hc' & Hr' & Hsame & _).
  exists t', h'. split; [done|]. by apply Remove_noop_of_absent.
Qed.

(** *** How the updates compose *)

(** X5: a second [Put] on the same key overwrites the first: the result
    reads, on every key and at every type, like a single [Put] of the
    second value. *)
Theorem Put_overwrite T1 T2 t key (v1 : val T1) (v2 : val T2) h :
  closed val h -> valid val h (root_ t) ->
  Z.of_nat (length key) < SizeT.modulus ->
  exists t1 h1 t2 h2 t3 h3,
    Put val T1 t key v1 h = Done (t1, h1) /\
    Put val T2 t1 key v2 h1 = Done (t2, h2) /\
    Put val T2 t key v2 h = Done (t3, h3) /\
    forall U key', Get val U t2 key' h2 = Get val U t3 key' h3.
Proof.
  intros Hc Hr Hlen.
  destruct (Put_reads T1 t key v1 h Hc Hr Hlen)
    as (t1 & h1 & ext1 & E1 & _ & Hc1 & Hr1 & Hs1 & Ho1).
  destruct (Put_reads T2 t1 key v2 h1 Hc1 Hr1 Hlen)
    as (t2 & h2 & ext2 & E2 & _ & Hc2 & Hr2 & Hs2 & Ho2).
  destruct (Put_reads T2 t key v2 h Hc Hr Hlen)
    as (t3 & h3 & ext3 & E3 & _ & Hc3 & Hr3 & Hs3 & Ho3).
  exists t1, h1, t2, h2, t3, h3. repeat split; try done.
  intros U key'. destruct (decide (key' = key)) as [->|Hne].
  - by rewrite Hs2, Hs3.
  - by rewrite Ho2, Ho1, Ho3.
Qed.

(** X6: [Put]s on two different keys commute: either order gives a version
    that reads the same on every key and at every type. *)
Theorem Put_commute T1 T2 t key1 key2 (v1 : val T1) (v2 : val T2) h :
  closed val h -> valid val h (root_ t) ->
  Z.of_nat (length key1) < SizeT.modulus ->
  Z.of_nat (length key2) < SizeT.modulus ->
  key1 <> key2 ->
  exists t1 h1 t12 h12 t2 h2 t21 h21,
    Put val T1 t key1 v1 h = Done (t1, h1) /\
    Put val T2 t1 key2 v2 h1 = Done (t12, h12) /\
    Put val T2 t key2 v2 h = Done (t2, h2) /\
    Put val T1 t2 key1 v1 h2 = Done (t21, h21) /\
    forall U key', Get val U t12 key' h12 = Get val U t21 key' h21.
Proof.
  intros Hc Hr Hlen1 Hlen2 Hne.
  destruct (Put_reads T1 t key1 v1 h Hc Hr Hlen1)
    as (t1 & h1 & ext1 & E1 & _ & Hc1 & Hr1 & Hs1 & Ho1).
  destruct (Put_reads T2 t1 key2 v2 h1 Hc1 Hr1 Hlen2)
    as (t12 & h12 & ext12 & E12 & _ & _ & _ & Hs12 & Ho12).
  destruct (Put_reads T2 t key2 v2 h Hc Hr Hlen2)
    as (t2 & h2 & ext2 & E2 & _ & Hc2 & Hr2 & Hs2 & Ho2).
  destruct (Put_reads T1 t2 key1 v1 h2 Hc2 Hr2 Hlen1)
    as (t21 & h21 & ext21 & E21 & _ & _ & _ & Hs21 & Ho21).
  exists t1, h1, t12, h12, t2, h2, t21, h21. repeat split; try done.
  intros U key'.
  destruct (decide (key' = key1)) as [->|Hn1].
  { by rewrite Ho12, Hs1, Hs21. }
  destruct (decide (key' = key2)) as [->|Hn2].
  { by rewrite Hs12, Ho21, Hs2. }
  by rewrite Ho12, Ho1, Ho21, Ho2.
Qed.

(** X7: [Remove]s of two different keys commute, in the same sense. *)
Theorem Remove_commute t key1 key2 h :
  closed val h -> valid val h (root_ t) ->
  Z.of_nat (length key1) < SizeT.modulus ->
  Z.of_nat (length key2) < SizeT.modulus ->
  key1 <> key2 ->
  exists t1 h1 t12 h12 t2 h2 t21 h21,
    Remove val t key1 h = Done (t1, h1) /\
    Remove val t1 key2 h1 = Done (t12, h12) /\
    Remove val t key2 h = Done (t2, h2) /\
    Remove val t2 key1 h2 = Done (t21, h21) /\
    forall U key', Get val U t12 key' h12 = Get val U t21 key' h21.
Proof.
  intros Hc Hr Hlen1 Hlen2 Hne.
  destruct (Remove_reads t key1 h Hc Hr Hlen1)
    as (t1 & h1 & ext1 & E1 & _ & Hc1 & Hr1 & Hs1 & Ho1).
  destruct (Remove_reads t1 key2 h1 Hc1 Hr1 Hlen2)
    as (t12 & h12 & ext12 & E12 & _ & _ & _ & Hs12 & Ho12).
  destruct (Remove_reads t key2 h Hc Hr Hlen2)
    as (t2 & h2 & ext2 & E2 & _ & Hc2 & Hr2 & Hs2 & Ho2).
  destruct (Remove_reads t2 key1 h2 Hc2 Hr2 Hlen1)
    as (t21 & h21 & ext21 & E21 & _ & _ & _ & Hs21 & Ho21).
  exists t1, h1, t12, h12, t2, h2, t21, h21. repeat split; try done.
  intros U key'.
  destruct (decide (key' = key1)) as [->|Hn1].
  { by rewrite Ho12, Hs1, Hs21. }
  destruct (decide (key' = key2)) as [->|Hn2].
  { by rewrite Hs12, Ho21, Hs2. }
  by rewrite Ho12, Ho1, Ho21, Ho2.
Qed.

(** X8: a [Put] and a [Remove] on two different keys commute. *)
Theorem Put_Remove_commute T t key1 key2 (v : val T) h :
  closed val h -> valid val h (root_ t) ->
  Z.of_nat (length key1) < SizeT.modulus ->
  Z.of_nat (length key2) < SizeT.modulus ->
  key1 <> key2 ->
  exists t1 h1 t12 h12 t2 h2 t21 h21,
    Put val T t key1 v h = Done (t1, h1) /\
    Remove val t1 key2 h1 = Done (t12, h12) /\
    Remove val t key2 h = Done (t2, h2) /\
    Put val T t2 key1 v h2 = Done (t21, h21) /\
    forall U key', Get val U t12 key' h12 = Get val U t21 key' h21.
Proof.
  intros Hc Hr Hlen1 Hlen2 Hne.
  destruct (Put_reads T t key1 v h Hc Hr Hlen1)
    as (t1 & h1 & ext1 & E1 & _ & Hc1 & Hr1 & Hs1 & Ho1).
  destruct (Remove_reads t1 key2 h1 Hc1 Hr1 Hlen2)
    as (t12 & h12 & ext12 & E12 & _ & _ & _ & Hs12 & Ho12).
  destruct (Remove_reads t key2 h Hc Hr Hlen2)
    as (t2 & h2 & ext2 & E2 & _ & Hc2 & Hr2 & Hs2 & Ho2).
  destruct (Put_reads T t2 key1 v h2 Hc2 Hr2 Hlen1)
    as (t21 & h21 & ext21 & E21 & _ & _ & _ & Hs21 & Ho21).
  exists t1, h1, t12, h12, t2, h2, t21, h21. repeat split; try done.
  intros U key'.
  destruct (decide (key' = key1)) as [->|Hn1].
  { by rewrite Ho12, Hs1, Hs21. }
  destruct (decide (key' = key2)) as [->|Hn2].
  { by rewrite Hs12, Ho21, Hs2. }
  by rewrite Ho12, Ho1, Ho21, Ho2.
Qed.

(** X9: a [Put] after a [Remove] of the same key reads like the [Put]
    alone: nothing of the removal is left to see. *)
Theorem Put_after_Remove T t key (v : val T) h :
  closed val h -> valid val h (root_ t) ->
  Z.of_nat (length key) < SizeT.modulus ->
  exists t1 h1 t2 h2 t3 h3,
    Remove val t key h = Done (t1, h1) /\
    Put val T t1 key v h1 = Done (t2, h2) /\
    Put val T t key v h = Done (t3, h3) /\
    forall U key', Get val U t2 key' h2 = Get val U t3 key' h3.
Proof.
  intros Hc Hr Hlen.
  destruct (Remove_reads t key h Hc Hr Hlen)
    as (t1 & h1 & ext1 & E1 & _ & Hc1 & Hr1 & Hs1 & Ho1).
  destruct (Put_reads T t1 key v h1 Hc1 Hr1 Hlen)
    as (t2 & h2 & ext2 & E2 & _ & Hc2 & Hr2 & Hs2 & Ho2).
  destruct (Put_reads T t key v h Hc Hr Hlen)
    as (t3 & h3 & ext3 & E3 & _ & Hc3 & Hr3 & Hs3 & Ho3).
  exists t1, h1, t2, h2, t3, h3. repeat split; try done.
  intros U key'. destruct (decide (key' = key)) as [->|Hne].
  - by rewrite Hs2, Hs3.
  - by rewrite Ho2, Ho1, Ho3.
Qed.

(** *** How many nodes the updates allocate *)

Lemma put_rec_length sv p key h :
  length (put_rec val sv p key h).2 = (length h + length key + 1)%nat /\
  (put_rec val sv p key h).1 = Some (length h + length key)%nat.
Proof.
  revert p h. induction key as [|c key IH]; intros p h.
  - simpl. rewrite length_app; simpl. split; [lia | f_equal; lia].
  - rewrite put_rec_cons. cbn [fst snd].
    destruct (IH (find_or_null (children_of val h p) c) h) as [Hl Hr].
    rewrite length_app, Hl; simpl. split; [lia | f_equal; lia].
Qed.

(** X10: [Put] allocates exactly one node per key character plus one for
    the value, the last of them being the root of the new version, which
    is therefore never null. *)
Theorem Put_allocates T t key (v : val T) h :
  closed val h -> valid val h (root_ t) ->
  Z.of_nat (length key) < SizeT.modulus ->
  exists t' h',
    Put val T t key v h = Done (t', h') /\
    length h' = (length h + length key + 1)%nat /\
    root_ t' = Some (length h + length key)%nat.
Proof.
  intros Hc Hr Hlen. eexists _, _. split; [by apply Put_put_rec|].
  apply put_rec_length.
Qed.

(** X11: [Remove] allocates no more than one node per key character plus
    one, and when it changes the version at all it allocates at least one
    node per key character. *)
Theorem Remove_allocates t key h :
  closed val h -> valid val h (root_ t) ->
  Z.of_nat (length key) < SizeT.modulus ->
  exists t' h',
    Remove val t key h = Done (t', h') /\
    (length h <= length h' <= length h + length key + 1)%nat /\
    ((t', h') <> (t, h) -> (length h + length key <= length h')%nat).
Proof.
  intros Hc Hr Hlen. rewrite Remove_remove_rec by done.
  destruct (remove_rec val (root_ t) key h) as [[r h']|] eqn:E.
  - pose proof (remove_rec_length _ _ _ _ _ E). eexists _, _.
    split; [done|]. split; [lia|]. intros _. lia.
  - exists t, h. split; [done|]. split; [lia|]. done.
Qed.

(** *** Sharing of the untouched subtrees *)

Lemma Get_loop_step h p c key :
  valid val h p ->
  Get_loop h p (c :: key) =
    match children_of val h p !! c with
    | None => Done None
    | Some q => Get_loop h q key
    end.
Proof.
  intros Hp. destruct p as [a|]; [|done].
  destruct (deref_valid val _ _ Hp) as [n Hn].
  rewrite (children_of_Some val _ _ _ Hn). simpl. by rewrite Hn.
Qed.

Lemma Get_loop_frame h ext p key :
  closed val h -> valid val h p ->
  Get_loop (h ++ ext) p key = Get_loop h p key.
Proof.
  intros Hc. revert p. induction key as [|c key IH]; intros p Hp; [done|].
  destruct p as [a|]; [|done].
  destruct (deref_valid val _ _ Hp) as [n Hn]. simpl.
  rewrite lookup_app_l by (by eapply lookup_lt_Some). rewrite Hn; simpl.
  destruct (children_ n !! c) as [q|] eqn:E; [|done].
  apply IH. by eapply closed_lookup.
Qed.

Lemma Get_loop_fresh h n c key :
  closed val h ->
  map_Forall (fun _ q => valid val h q) (children_ n) ->
  Get_loop (h ++ [n]) (Some (length h)) (c :: key) =
    match children_ n !! c with
    | None => Done None
    | Some q => Get_loop h q key
    end.
Proof.
  intros Hc Hn. simpl. rewrite lookup_app_r by lia.
  rewrite Nat.sub_diag; simpl.
  destruct (children_ n !! c) as [q|] eqn:E; [|done].
  apply Get_loop_frame; [done|]. by apply (Hn c q).
Qed.

Lemma Get_loop_null h key : key <> [] -> Get_loop h None key = Done None.
Proof. by destruct key. Qed.

(** The step of both sharing arguments: above a rebuilt child. *)
Lemma Get_loop_path_copy h h1 ext p child c c' key key' :
  closed val h -> valid val h p ->
  h1 = h ++ ext -> closed val h1 -> valid val h1 child ->
  ~ (c' :: key') `prefix_of` (c :: key) ->
  (~ key' `prefix_of` key ->
   Get_loop h1 child key' =
     Get_loop h (find_or_null (children_of val h p) c) key') ->
  Get_loop
    (h1 ++ [mkTrieNode (<[c := child]> (children_of val h p))
              (value_of val h p)])
    (Some (length h1)) (c' :: key') =
  Get_loop h p (c' :: key').
Proof.
  intros Hc Hp Hext Hc1 Hchild Hnp IH.
  rewrite Get_loop_fresh; [|done|by eapply path_copy_children].
  rewrite Get_loop_step by done. simpl.
  destruct (decide (c' = c)) as [->|Hne].
  - rewrite lookup_insert_eq.
    assert (~ key' `prefix_of` key) as Hnp'.
    { intros Hpre. apply Hnp. by apply prefix_cons. }
    rewrite IH by done. unfold find_or_null.
    destruct (children_of val h p !! c); [done|].
    apply Get_loop_null. intros ->. apply Hnp'. apply prefix_nil.
  - rewrite lookup_insert_ne by done.
    destruct (children_of val h p !! c') as [q|] eqn:E; [|done].
    subst h1. apply Get_loop_frame; [done|].
    by apply (children_of_closed val h p Hc c' q).
Qed.

Lemma put_rec_shares sv p key key' h :
  closed val h -> valid val h p -> ~ key' `prefix_of` key ->
  Get_loop (put_rec val sv p key h).2 (put_rec val sv p key h).1 key' =
    Get_loop h p key'.
Proof.
  intros Hc. revert p key'.
  induction key as [|c key IH]; intros p key' Hp Hnp.
  - destruct key' as [|c' key']; [destruct Hnp; apply prefix_nil|].
    simpl put_rec. cbn [fst snd].
    rewrite Get_loop_fresh; [|done|by apply children_of_closed].
    by rewrite Get_loop_step.
  - destruct key' as [|c' key']; [destruct Hnp; apply prefix_nil|].
    rewrite put_rec_cons. cbn [fst snd].
    set (q := find_or_null (children_of val h p) c).
    destruct (put_rec_closed val sv q key h Hc) as [Hc1 Hv1].
    destruct (put_rec_ext val sv q key h) as [ext Hext].
    eapply Get_loop_path_copy; try done.
    intros Hnp'. apply IH; [by apply children_of_valid | done].
Qed.

Lemma remove_rec_shares p key key' h r h' :
  closed val h -> valid val h p -> ~ key' `prefix_of` key ->
  remove_rec val p key h = Some (r, h') ->
  Get_loop h' r key' = Get_loop h p key'.
Proof.
  intros Hc. revert p key' r h'.
  induction key as [|c key IH]; intros p key' r h' Hp Hnp E;
    (destruct key' as [|c' key']; [destruct Hnp; apply prefix_nil|]);
    destruct p as [a|]; simpl in E; try done.
  - rewrite (Get_loop_step h (Some a)) by done.
    destruct (value_of val h (Some a)); [|done].
    destruct (decide (children_of val h (Some a) = ∅)) as [Ee|Ene];
      inversion E; subst.
    + rewrite Ee, lookup_empty. done.
    + rewrite Get_loop_fresh; [done|done|by apply children_of_closed].
  - destruct (remove_rec val _ key h) as [[child h1]|] eqn:E1; [|done].
    inversion E; subst.
    destruct (remove_rec_closed val _ _ _ _ _ Hc E1) as [Hc1 Hv1].
    destruct (remove_rec_ext val _ _ _ _ _ E1) as [ext Hext].
    eapply Get_loop_path_copy; try done.
    intros Hnp'. eapply IH; [by apply children_of_valid | done | done].
Qed.

(** X12: structural sharing in [Put].  For every key that is not a prefix
    of the inserted key, the walk of [Get] ends in the new version on the
    very node reference it ends on in the source version: only the nodes
    along the inserted key are new. *)
Theorem Put_shares_subtrees T t key key' (v : val T) h :
  closed val h -> valid val h (root_ t) ->
  Z.of_nat (length key) < SizeT.modulus ->
  ~ key' `prefix_of` key ->
  exists t' h',
    Put val T t key v h = Done (t', h') /\
    Get_loop h' (root_ t') key' = Get_loop h (root_ t) key'.
Proof.
  intros Hc Hr Hlen Hnp. eexists _, _. split; [by apply Put_put_rec|].
  by apply put_rec_shares.
Qed.

(** X13: structural sharing in [Remove], in the same sense. *)
Theorem Remove_shares_subtrees t key key' h :
  closed val h -> valid val h (root_ t) ->
  Z.of_nat (length key) < SizeT.modulus ->
  ~ key' `prefix_of` key ->
  exists t' h',
    Remove val t key h = Done (t', h') /\
    Get_loop h' (root_ t') key' = Get_loop h (root_ t) key'.
Proof.
  intros Hc Hr Hlen Hnp. rewrite Remove_remove_rec by done.
  destruct (remove_rec val (root_ t) key h) as [[r h']|] eqn:E.
  - eexists _, _. split; [done|]. by eapply remove_rec_shares.
  - by exists t, h.
Qed.

(** *** Versions stay readable *)

Lemma evolves_ext h0 h :
  closed val h0 -> evolves val h0 h ->
  closed val h /\ exists ext, h = h0 ++ ext.
Proof.
  intros Hc0. induction 1 as [h0|T t key v h0 h t' h' _ IH Hr Hlen E
                              |t key h0 h t' h' _ IH Hr Hlen E].
  - split; [done|]. exists []. by rewrite app_nil_r.
  - destruct (IH Hc0) as [Hc [ext ->]].
    destruct (Put_reads T t key v _ Hc Hr Hlen)
      as (t1 & h1 & ext1 & E1 & -> & Hc1 & _).
    rewrite E1 in E. inversion E; subst.
    split; [done|]. eexists. by rewrite <- app_assoc.
  - destruct (IH Hc0) as [Hc [ext ->]].
    destruct (Remove_reads t key _ Hc Hr Hlen)
      as (t1 & h1 & ext1 & E1 & -> & Hc1 & _).
    rewrite E1 in E. inversion E; subst.
    split; [done|]. eexists. by rewrite <- app_assoc.
Qed.

(** X14: a version is a snapshot.  Whatever sequence of [Put]s and
    [Remove]s is run afterwards, on this or on any other version, every
    [Get] on the version returns what it returned before. *)
Theorem Get_snapshot U t key h0 h :
  closed val h0 -> valid val h0 (root_ t) ->
  evolves val h0 h ->
  Get val U t key h = Get val U t key h0.
Proof.
  intros Hc0 Hr Hev.
  destruct (evolves_ext h0 h Hc0 Hev) as [_ [ext ->]].
  destruct t as [r]. by apply Get_frame.
Qed.

(** *** What holds of every reachable version *)

(** X15: every store reached from the empty trie by [Put]s and [Remove]s is
    closed and the version's root is valid in it, so that [Get] on a
    reachable version never faults, whatever the key. *)
Theorem reachable_reads_safely t h :
  reachable val t h ->
  closed val h /\ valid val h (root_ t) /\
  forall U key, exists r, Get val U t key h = Done r.
Proof.
  intros Hreach. destruct (reachable_closed val t h Hreach) as [Hc Hr].
  split; [done|]. split; [done|].
  intros U key. destruct t as [r]. by apply Get_total.
Qed.

(** X16: no node of a reachable store has both an empty children mapping
    and no value.  (Entries bound to [nullptr] count as entries here.) *)
Theorem reachable_no_bare_node t h a n :
  reachable val t h -> h !! a = Some n ->
  is_value_node_ n = true \/ children_ n <> ∅.
Proof.
  intros Hreach Ha.
  pose proof (reachable_mapping_or_value val t h Hreach) as Hall.
  by apply (proj1 (Forall_lookup _ _) Hall a n).
Qed.

(** *** Round trips *)

Lemma Get_stored_as T U t key (v : val T) h :
  Get val T t key h = Done (Some v) ->
  Get val U t key h = Done (stored_as val U (existT T v)).
Proof.
  unfold Get. intros HT.
  destruct (Get_loop h (root_ t) key) as [[node|]| |]; simpl in *; try done.
  destruct node as [a|]; simpl in *; [|done].
  destruct (h !! a) as [n|]; simpl in *; [|done].
  destruct (is_value_node_ n); simpl in *; [|done].
  f_equal. unfold stored_as, dynamic_cast in *. simpl.
  destruct (value_ n) as [[T' v']|]; [|done].
  destruct (decide (T' = T)) as [->|]; [|done].
  simpl in HT. by inversion HT.
Qed.

(** X17: inserting a key that held no value and removing it again gives a
    version that reads like the original on every key, the key itself
    included. *)
Theorem Remove_Put_fresh T t key (v : val T) h :
  closed val h -> valid val h (root_ t) ->
  Z.of_nat (length key) < SizeT.modulus ->
  (forall U, Get val U t key h = Done None) ->
  exists t1 h1 t2 h2,
    Put val T t key v h = Done (t1, h1) /\
    Remove val t1 key h1 = Done (t2, h2) /\
    forall U key', Get val U t2 key' h2 = Get val U t key' h.
Proof.
  intros Hc Hr Hlen Habs.
  destruct (Put_reads T t key v h Hc Hr Hlen)
    as (t1 & h1 & ext1 & E1 & _ & Hc1 & Hr1 & Hs1 & Ho1).
  destruct (Remove_reads t1 key h1 Hc1 Hr1 Hlen)
    as (t2 & h2 & ext2 & E2 & _ & Hc2 & Hr2 & Hs2 & Ho2).
  exists t1, h1, t2, h2. repeat split; try done.
  intros U key'. destruct (decide (key' = key)) as [->|Hne].
  - by rewrite Hs2, Habs.
  - by rewrite Ho2, Ho1.
Qed.

(** X18: removing a key and putting back the value it held gives a version
    that reads like the original on every key and at every type. *)
Theorem Put_Remove_restore T t key (v : val T) h :
  closed val h -> valid val h (root_ t) ->
  Z.of_nat (length key) < SizeT.modulus ->
  Get val T t key h = Done (Some v) ->
  exists t1 h1 t2 h2,
    Remove val t key h = Done (t1, h1) /\
    Put val T t1 key v h1 = Done (t2, h2) /\
    forall U key', Get val U t2 key' h2 = Get val U t key' h.
Proof.
  intros Hc Hr Hlen Hheld.
  destruct (Remove_reads t key h Hc Hr Hlen)
    as (t1 & h1 & ext1 & E1 & _ & Hc1 & Hr1 & Hs1 & Ho1).
  destruct (Put_reads T t1 key v h1 Hc1 Hr1 Hlen)
    as (t2 & h2 & ext2 & E2 & _ & Hc2 & Hr2 & Hs2 & Ho2).
  exists t1, h1, t2, h2. repeat split; try done.
  intros U key'. destruct (decide (key' = key)) as [->|Hne].
  - rewrite Hs2. symmetry. by apply Get_stored_as.
  - by rewrite Ho2, Ho1.
Qed.

(** *** The empty trie and the empty key *)

(** X19: one [Put] on the empty trie gives a version that holds the
    inserted key and nothing else: every other key, the prefixes of the
    inserted key included, reads absent. *)
Theorem Put_on_empty T key (v : val T) h :
  closed val h ->
  Z.of_nat (length key) < SizeT.modulus ->
  exists t' h',
    Put val T (mkTrie None) key v h = Done (t', h') /\
    Get val T t' key h' = Done (Some v) /\
    forall U key', key' <> key -> Get val U t' key' h' = Done None.
Proof.
  intros Hc Hlen.
  destruct (Put_reads T (mkTrie None) key v h Hc I Hlen)
    as (t' & h' & ext & E & _ & _ & _ & Hs & Ho).
  exists t', h'. split; [done|]. split.
  - rewrite Hs. unfold stored_as. by rewrite dynamic_cast_same.
  - intros U key' Hne. by rewrite Ho, Get_null.
Qed.

(** X20: on the empty trie, whatever the store and the key, [Get] returns
    absent and [Remove] returns the empty trie without touching the
    store. *)
Theorem empty_trie_Get_Remove U key h :
  Get val U (mkTrie None) key h = Done None /\
  Remove val (mkTrie None) key h = Done (mkTrie None, h).
Proof.
  split; [apply Get_null|].
  unfold Remove, store_old_path, bind. simpl root_.
  assert (forall b (ks : Z) (s : Z * node_ptr * list node_ptr) body,
            s.1.2 = None ->
            while (val := val) b
              (fun '(idx, cur, _) => (idx <? ks) && negb (is_null cur))
              body s h = Done (s, h)) as Hw.
  { intros b ks [[idx cur] st] body Hs. simpl in Hs. subst cur.
    destruct b; simpl; by rewrite andb_false_r. }
  rewrite Hw by done. by rewrite orb_true_r.
Qed.

(** X21: [Remove] of the empty key on a root that holds a value.  If the
    root has no entries the result is the empty trie and nothing is
    allocated; otherwise the root is replaced by one fresh plain node with
    the same children mapping. *)
Theorem Remove_empty_key t a n h :
  root_ t = Some a -> h !! a = Some n -> is_value_node_ n = true ->
  Remove val t [] h =
    Done (if decide (children_ n = ∅) then (mkTrie None, h)
          else (mkTrie (Some (length h)),
                h ++ [mkTrieNode (children_ n) None])).
Proof.
  intros Hroot Ha Hv. unfold Remove, store_old_path, copy_along_path, bind.
  rewrite Hroot. simpl. unfold read, deref. rewrite Ha, Hv. simpl.
  by destruct (decide (children_ n = ∅)).
Qed.

End More.

(** ** The further properties at concrete inputs *)

Example Put_ac_layout :
  Put Inst.value Inst.UInt64 Inst.trie_ab ["a"; "c"]%char 5 Inst.store_ab =
    Done (mkTrie (Some 5%nat), Inst.store_ab_ac).
Proof. vm_compute. reflexivity. Qed.

Lemma trie_ab_reachable : reachable Inst.value Inst.trie_ab Inst.store_ab.
Proof.
  apply (reachable_Put Inst.value Inst.UInt32 Inst.empty ["a"; "b"]%char 1 []);
    [apply reachable_empty | reflexivity | vm_compute; reflexivity].
Defined.

Lemma store_ab_evolves : evolves Inst.value Inst.store_ab Inst.store_ab_ac.
Proof.
  apply (evolves_Put Inst.value Inst.UInt64 Inst.trie_ab ["a"; "c"]%char 5
           Inst.store_ab Inst.store_ab (mkTrie (Some 5%nat)));
    [apply evolves_refl | vm_compute; lia | reflexivity
    | vm_compute; reflexivity].
Defined.

Lemma Remove_non_destructive_witness :
  closed Inst.value Inst.store_ab /\
  valid Inst.value Inst.store_ab (root_ Inst.trie_ab) /\
  Z.of_nat (length ["a"; "b"]%char) < SizeT.modulus /\
  exists t' h' ext,
    Remove Inst.value Inst.trie_ab ["a"; "b"]%char Inst.store_ab = Done (t', h') /\
    h' = Inst.store_ab ++ ext /\
    (forall U key', Get Inst.value U Inst.trie_ab key' h' =
                    Get Inst.value U Inst.trie_ab key' Inst.store_ab) /\
    (forall U key', key' <> ["a"; "b"]%char ->
       Get Inst.value U t' key' h' = Get Inst.value U Inst.trie_ab key' h').
Proof.
  split; [exact store_ab_closed|].
  split; [vm_compute; lia|].
  split; [reflexivity|].
  apply (Remove_non_destructive Inst.value Inst.trie_ab ["a"; "b"]%char Inst.store_ab);
    [exact store_ab_closed | vm_compute; lia | reflexivity].
Defined.

Lemma Get_Remove_same_witness :
  closed Inst.value Inst.store_ab /\
  valid Inst.value Inst.store_ab (root_ Inst.trie_ab) /\
  Z.of_nat (length ["a"; "b"]%char) < SizeT.modulus /\
  exists t' h',
    Remove Inst.value Inst.trie_ab ["a"; "b"]%char Inst.store_ab = Done (t', h') /\
    forall U, Get Inst.value U t' ["a"; "b"]%char h' = Done None.
Proof.
  split; [exact store_ab_closed|].
  split; [vm_compute; lia|].
  split; [reflexivity|].
  apply (Get_Remove_same Inst.value Inst.trie_ab ["a"; "b"]%char Inst.store_ab);
    [exact store_ab_closed | vm_compute; lia | reflexivity].
Defined.

Lemma Remove_noop_iff_witness :
  closed Inst.value Inst.store_ab /\
  valid Inst.value Inst.store_ab (root_ Inst.trie_ab) /\
  Z.of_nat (length ["a"]%char) < SizeT.modulus /\
  (Remove Inst.value Inst.trie_ab ["a"]%char Inst.store_ab =
     Done (Inst.trie_ab, Inst.store_ab) <->
   forall U, Get Inst.value U Inst.trie_ab ["a"]%char Inst.store_ab = Done None).
Proof.
  split; [exact store_ab_closed|].
  split; [vm_compute; lia|].
  split; [reflexivity|].
  apply (Remove_noop_iff Inst.value Inst.trie_ab ["a"]%char Inst.store_ab);
    [exact store_ab_closed | vm_compute; lia | reflexivity].
Defined.

Lemma Remove_idempotent_witness :
  closed Inst.value Inst.store_ab /\
  valid Inst.value Inst.store_ab (root_ Inst.trie_ab) /\
  Z.of_nat (length ["a"; "b"]%char) < SizeT.modulus /\
  exists t' h',
    Remove Inst.value Inst.trie_ab ["a"; "b"]%char Inst.store_ab = Done (t', h') /\
    Remove Inst.value t' ["a"; "b"]%char h' = Done (t', h').
Proof.
  split; [exact store_ab_closed|].
  split; [vm_compute; lia|].
  split; [reflexivity|].
  apply (Remove_idempotent Inst.value Inst.trie_ab ["a"; "b"]%char Inst.store_ab);
    [exact store_ab_closed | vm_compute; lia | reflexivity].
Defined.

Lemma Put_overwrite_witness :
  closed Inst.value Inst.store_ab /\
  valid Inst.value Inst.store_ab (root_ Inst.trie_ab) /\
  Z.of_nat (length ["a"]%char) < SizeT.modulus /\
  exists t1 h1 t2 h2 t3 h3,
    Put Inst.value Inst.UInt32 Inst.trie_ab ["a"]%char 4 Inst.store_ab = Done (t1, h1) /\
    Put Inst.value Inst.StdString t1 ["a"]%char "four"%string h1 = Done (t2, h2) /\
    Put Inst.value Inst.StdString Inst.trie_ab ["a"]%char "four"%string Inst.store_ab =
      Done (t3, h3) /\
    forall U key', Get Inst.value U t2 key' h2 = Get Inst.value U t3 key' h3.
Proof.
  split; [exact store_ab_closed|].
  split; [vm_compute; lia|].
  split; [reflexivity|].
  apply (Put_overwrite Inst.value Inst.UInt32 Inst.StdString Inst.trie_ab ["a"]%char 4 "four"%string Inst.store_ab);
    [exact store_ab_closed | vm_compute; lia | reflexivity].
Defined.

Lemma Put_commute_witness :
  closed Inst.value Inst.store_ab /\
  valid Inst.value Inst.store_ab (root_ Inst.trie_ab) /\
  Z.of_nat (length ["a"]%char) < SizeT.modulus /\
  Z.of_nat (length ["a"; "c"]%char) < SizeT.modulus /\
  ["a"]%char <> ["a"; "c"]%char /\
  exists t1 h1 t12 h12 t2 h2 t21 h21,
    Put Inst.value Inst.UInt32 Inst.trie_ab ["a"]%char 4 Inst.store_ab = Done (t1, h1) /\
    Put Inst.value Inst.UInt64 t1 ["a"; "c"]%char 5 h1 = Done (t12, h12) /\
    Put Inst.value Inst.UInt64 Inst.trie_ab ["a"; "c"]%char 5 Inst.store_ab = Done (t2, h2) /\
    Put Inst.value Inst.UInt32 t2 ["a"]%char 4 h2 = Done (t21, h21) /\
    forall U key', Get Inst.value U t12 key' h12 = Get Inst.value U t21 key' h21.
Proof.
  split; [exact store_ab_closed|].
  split; [vm_compute; lia|].
  split; [reflexivity|].
  split; [reflexivity|].
  split; [discriminate|].
  apply (Put_commute Inst.value Inst.UInt32 Inst.UInt64 Inst.trie_ab ["a"]%char ["a"; "c"]%char 4 5 Inst.store_ab);
    [exact store_ab_closed | vm_compute; lia | reflexivity | reflexivity | discriminate].
Defined.

Lemma Remove_commute_witness :
  closed Inst.value Inst.store_ab /\
  valid Inst.value Inst.store_ab (root_ Inst.trie_ab) /\
  Z.of_nat (length ["a"; "b"]%char) < SizeT.modulus /\
  Z.of_nat (length ["a"]%char) < SizeT.modulus /\
  ["a"; "b"]%char <> ["a"]%char /\
  exists t1 h1 t12 h12 t2 h2 t21 h21,
    Remove Inst.value Inst.trie_ab ["a"; "b"]%char Inst.store_ab = Done (t1, h1) /\
    Remove Inst.value t1 ["a"]%char h1 = Done (t12, h12) /\
    Remove Inst.value Inst.trie_ab ["a"]%char Inst.store_ab = Done (t2, h2) /\
    Remove Inst.value t2 ["a"; "b"]%char h2 = Done (t21, h21) /\
    forall U key', Get Inst.value U t12 key' h12 = Get Inst.value U t21 key' h21.
Proof.
  split; [exact store_ab_closed|].
  split; [vm_compute; lia|].
  split; [reflexivity|].
  split; [reflexivity|].
  split; [discriminate|].
  apply (Remove_commute Inst.value Inst.trie_ab ["a"; "b"]%char ["a"]%char Inst.store_ab);
    [exact store_ab_closed | vm_compute; lia | reflexivity | reflexivity | discriminate].
Defined.

Lemma Put_Remove_commute_witness :
  closed Inst.value Inst.store_ab /\
  valid Inst.value Inst.store_ab (root_ Inst.trie_ab) /\
  Z.of_nat (length ["a"]%char) < SizeT.modulus /\
  Z.of_nat (length ["a"; "b"]%char) < SizeT.modulus /\
  ["a"]%char <> ["a"; "b"]%char /\
  exists t1 h1 t12 h12 t2 h2 t21 h21,
    Put Inst.value Inst.UInt32 Inst.trie_ab ["a"]%char 4 Inst.store_ab = Done (t1, h1) /\
    Remove Inst.value t1 ["a"; "b"]%char h1 = Done (t12, h12) /\
    Remove Inst.value Inst.trie_ab ["a"; "b"]%char Inst.store_ab = Done (t2, h2) /\
    Put Inst.value Inst.UInt32 t2 ["a"]%char 4 h2 = Done (t21, h21) /\
    forall U key', Get Inst.value U t12 key' h12 = Get Inst.value U t21 key' h21.
Proof.
  split; [exact store_ab_closed|].
  split; [vm_compute; lia|].
  split; [reflexivity|].
  split; [reflexivity|].
  split; [discriminate|].
  apply (Put_Remove_commute Inst.value Inst.UInt32 Inst.trie_ab ["a"]%char ["a"; "b"]%char 4 Inst.store_ab);
    [exact store_ab_closed | vm_compute; lia | reflexivity | reflexivity | discriminate].
Defined.

Lemma Put_after_Remove_witness :
  closed Inst.value Inst.store_ab /\
  valid Inst.value Inst.store_ab (root_ Inst.trie_ab) /\
  Z.of_nat (length ["a"; "b"]%char) < SizeT.modulus /\
  exists t1 h1 t2 h2 t3 h3,
    Remove Inst.value Inst.trie_ab ["a"; "b"]%char Inst.store_ab = Done (t1, h1) /\
    Put Inst.value Inst.UInt64 t1 ["a"; "b"]%char 8 h1 = Done (t2, h2) /\
    Put Inst.value Inst.UInt64 Inst.trie_ab ["a"; "b"]%char 8 Inst.store_ab = Done (t3, h3) /\
    forall U key', Get Inst.value U t2 key' h2 = Get Inst.value U t3 key' h3.
Proof.
  split; [exact store_ab_closed|].
  split; [vm_compute; lia|].
  split; [reflexivity|].
  apply (Put_after_Remove Inst.value Inst.UInt64 Inst.trie_ab ["a"; "b"]%char 8 Inst.store_ab);
    [exact store_ab_closed | vm_compute; lia | reflexivity].
Defined.

Lemma Put_allocates_witness :
  closed Inst.value Inst.store_ab /\
  valid Inst.value Inst.store_ab (root_ Inst.trie_ab) /\
  Z.of_nat (length ["a"; "c"]%char) < SizeT.modulus /\
  exists t' h',
    Put Inst.value Inst.UInt64 Inst.trie_ab ["a"; "c"]%char 5 Inst.store_ab = Done (t', h') /\
    length h' = (length Inst.store_ab + length ["a"; "c"]%char + 1)%nat /\
    root_ t' = Some (length Inst.store_ab + length ["a"; "c"]%char)%nat.
Proof.
  split; [exact store_ab_closed|].
  split; [vm_compute; lia|].
  split; [reflexivity|].
  apply (Put_allocates Inst.value Inst.UInt64 Inst.trie_ab ["a"; "c"]%char 5 Inst.store_ab);
    [exact store_ab_closed | vm_compute; lia | reflexivity].
Defined.

Lemma Remove_allocates_witness :
  closed Inst.value Inst.store_ab /\
  valid Inst.value Inst.store_ab (root_ Inst.trie_ab) /\
  Z.of_nat (length ["a"; "b"]%char) < SizeT.modulus /\
  exists t' h',
    Remove Inst.value Inst.trie_ab ["a"; "b"]%char Inst.store_ab = Done (t', h') /\
    (length Inst.store_ab <= length h' <=
       length Inst.store_ab + length ["a"; "b"]%char + 1)%nat /\
    ((t', h') <> (Inst.trie_ab, Inst.store_ab) ->
     (length Inst.store_ab + length ["a"; "b"]%char <= length h')%nat).
Proof.
  split; [exact store_ab_closed|].
  split; [vm_compute; lia|].
  split; [reflexivity|].
  apply (Remove_allocates Inst.value Inst.trie_ab ["a"; "b"]%char Inst.store_ab);
    [exact store_ab_closed | vm_compute; lia | reflexivity].
Defined.

Lemma Put_shares_subtrees_witness :
  closed Inst.value Inst.store_ab /\
  valid Inst.value Inst.store_ab (root_ Inst.trie_ab) /\
  Z.of_nat (length ["a"; "c"]%char) < SizeT.modulus /\
  ~ ["a"; "b"]%char `prefix_of` ["a"; "c"]%char /\
  exists t' h',
    Put Inst.value Inst.UInt64 Inst.trie_ab ["a"; "c"]%char 5 Inst.store_ab = Done (t', h') /\
    Get_loop h' (root_ t') ["a"; "b"]%char =
      Get_loop Inst.store_ab (root_ Inst.trie_ab) ["a"; "b"]%char.
Proof.
  split; [exact store_ab_closed|].
  split; [vm_compute; lia|].
  split; [reflexivity|].
  split; [intros [k Hk]; discriminate Hk|].
  apply (Put_shares_subtrees Inst.value Inst.UInt64 Inst.trie_ab ["a"; "c"]%char ["a"; "b"]%char 5 Inst.store_ab);
    [exact store_ab_closed | vm_compute; lia | reflexivity | intros [k Hk]; discriminate Hk].
Defined.

Lemma store_ab_ac_closed : closed Inst.value Inst.store_ab_ac.
Proof. apply (bool_decide_unpack _). vm_compute. exact I. Defined.

Lemma Remove_shares_subtrees_witness :
  closed Inst.value Inst.store_ab_ac /\
  valid Inst.value Inst.store_ab_ac (root_ (mkTrie (Some 5%nat))) /\
  Z.of_nat (length ["a"; "c"]%char) < SizeT.modulus /\
  ~ ["a"; "b"]%char `prefix_of` ["a"; "c"]%char /\
  exists t' h',
    Remove Inst.value (mkTrie (Some 5%nat)) ["a"; "c"]%char Inst.store_ab_ac = Done (t', h') /\
    Get_loop h' (root_ t') ["a"; "b"]%char =
      Get_loop Inst.store_ab_ac (root_ (mkTrie (Some 5%nat))) ["a"; "b"]%char.
Proof.
  split; [exact store_ab_ac_closed|].
  split; [vm_compute; lia|].
  split; [reflexivity|].
  split; [intros [k Hk]; discriminate Hk|].
  apply (Remove_shares_subtrees Inst.value (mkTrie (Some 5%nat)) ["a"; "c"]%char ["a"; "b"]%char Inst.store_ab_ac);
    [exact store_ab_ac_closed | vm_compute; lia | reflexivity | intros [k Hk]; discriminate Hk].
Defined.

Lemma Get_snapshot_witness :
  closed Inst.value Inst.store_ab /\
  valid Inst.value Inst.store_ab (root_ Inst.trie_ab) /\
  evolves Inst.value Inst.store_ab Inst.store_ab_ac /\
  Get Inst.value Inst.UInt32 Inst.trie_ab ["a"; "b"]%char Inst.store_ab_ac =
    Get Inst.value Inst.UInt32 Inst.trie_ab ["a"; "b"]%char Inst.store_ab.
Proof.
  split; [exact store_ab_closed|]. split; [vm_compute; lia|].
  split; [exact store_ab_evolves|].
  apply (Get_snapshot Inst.value Inst.UInt32 Inst.trie_ab ["a"; "b"]%char
           Inst.store_ab Inst.store_ab_ac);
    [exact store_ab_closed | vm_compute; lia | exact store_ab_evolves].
Defined.

Lemma reachable_reads_safely_witness :
  reachable Inst.value Inst.trie_ab Inst.store_ab /\
  closed Inst.value Inst.store_ab /\
  valid Inst.value Inst.store_ab (root_ Inst.trie_ab) /\
  forall U key, exists r, Get Inst.value U Inst.trie_ab key Inst.store_ab = Done r.
Proof.
  split; [exact trie_ab_reachable|].
  apply (reachable_reads_safely Inst.value Inst.trie_ab Inst.store_ab).
  exact trie_ab_reachable.
Defined.

Lemma reachable_no_bare_node_witness :
  reachable Inst.value Inst.trie_ab Inst.store_ab /\
  Inst.store_ab !! 1%nat =
    Some (mkTrieNode {[ "b"%char := Some 0%nat ]} None) /\
  (is_value_node_ (mkTrieNode (val := Inst.value)
                     {[ "b"%char := Some 0%nat ]} None) = true \/
   children_ (mkTrieNode (val := Inst.value)
                {[ "b"%char := Some 0%nat ]} None) <> ∅).
Proof.
  split; [exact trie_ab_reachable|]. split; [reflexivity|].
  apply (reachable_no_bare_node Inst.value Inst.trie_ab Inst.store_ab 1%nat);
    [exact trie_ab_reachable | reflexivity].
Defined.

Lemma Remove_Put_fresh_witness :
  closed Inst.value Inst.store_ab /\
  valid Inst.value Inst.store_ab (root_ Inst.trie_ab) /\
  Z.of_nat (length ["a"]%char) < SizeT.modulus /\
  (forall U, Get Inst.value U Inst.trie_ab ["a"]%char Inst.store_ab = Done None) /\
  exists t1 h1 t2 h2,
    Put Inst.value Inst.UInt32 Inst.trie_ab ["a"]%char 4 Inst.store_ab = Done (t1, h1) /\
    Remove Inst.value t1 ["a"]%char h1 = Done (t2, h2) /\
    forall U key', Get Inst.value U t2 key' h2 =
                   Get Inst.value U Inst.trie_ab key' Inst.store_ab.
Proof.
  split; [exact store_ab_closed|]. split; [vm_compute; lia|].
  split; [reflexivity|]. split; [intros U; reflexivity|].
  apply (Remove_Put_fresh Inst.value Inst.UInt32 Inst.trie_ab ["a"]%char 4
           Inst.store_ab);
    [exact store_ab_closed | vm_compute; lia | reflexivity
    | intros U; reflexivity].
Defined.

Lemma Put_Remove_restore_witness :
  closed Inst.value Inst.store_ab /\
  valid Inst.value Inst.store_ab (root_ Inst.trie_ab) /\
  Z.of_nat (length ["a"; "b"]%char) < SizeT.modulus /\
  Get Inst.value Inst.UInt32 Inst.trie_ab ["a"; "b"]%char Inst.store_ab =
    Done (Some 1) /\
  exists t1 h1 t2 h2,
    Remove Inst.value Inst.trie_ab ["a"; "b"]%char Inst.store_ab = Done (t1, h1) /\
    Put Inst.value Inst.UInt32 t1 ["a"; "b"]%char 1 h1 = Done (t2, h2) /\
    forall U key', Get Inst.value U t2 key' h2 =
                   Get Inst.value U Inst.trie_ab key' Inst.store_ab.
Proof.
  split; [exact store_ab_closed|]. split; [vm_compute; lia|].
  split; [reflexivity|]. split; [reflexivity|].
  apply (Put_Remove_restore Inst.value Inst.UInt32 Inst.trie_ab ["a"; "b"]%char
           1 Inst.store_ab);
    [exact store_ab_closed | vm_compute; lia | reflexivity | reflexivity].
Defined.

Lemma Put_on_empty_witness :
  closed Inst.value Inst.store_ab /\
  Z.of_nat (length ["x"; "y"]%char) < SizeT.modulus /\
  exists t' h',
    Put Inst.value Inst.UInt32 (mkTrie None) ["x"; "y"]%char 7 Inst.store_ab =
      Done (t', h') /\
    Get Inst.value Inst.UInt32 t' ["x"; "y"]%char h' = Done (Some 7) /\
    forall U key', key' <> ["x"; "y"]%char ->
      Get Inst.value U t' key' h' = Done None.
Proof.
  split; [exact store_ab_closed|]. split; [reflexivity|].
  apply (Put_on_empty Inst.value Inst.UInt32 ["x"; "y"]%char 7 Inst.store_ab);
    [exact store_ab_closed | reflexivity].
Defined.

Lemma Remove_empty_key_witness :
  root_ (mkTrie (Some 0%nat)) = Some 0%nat /\
  Inst.store_ab !! 0%nat = Some (mkTrieNode ∅ (Some (existT Inst.UInt32 1))) /\
  is_value_node_ (mkTrieNode (val := Inst.value) ∅
                    (Some (existT Inst.UInt32 1))) = true /\
  Remove Inst.value (mkTrie (Some 0%nat)) [] Inst.store_ab =
    Done (if decide (children_ (mkTrieNode (val := Inst.value) ∅
                                  (Some (existT Inst.UInt32 1))) = ∅)
          then (mkTrie None, Inst.store_ab)
          else (mkTrie (Some (length Inst.store_ab)),
                Inst.store_ab ++
                  [mkTrieNode
                     (children_ (mkTrieNode (val := Inst.value) ∅
                                   (Some (existT Inst.UInt32 1)))) None])).
Proof.
  split; [reflexivity|]. split; [reflexivity|]. split; [reflexivity|].
  apply (Remove_empty_key Inst.value (mkTrie (Some 0%nat)) 0%nat
           (mkTrieNode ∅ (Some (existT Inst.UInt32 1))) Inst.store_ab);
    reflexivity.
Defined.
